(** * BugLiteAI image pipeline ([generate.py]): model and properties

    The script walks the category (species) directories of a root
    directory.  For each one it merges the CSV metadata, downloads up to
    [MAX_IMAGES_PER_SPECIES] images through a thread pool and tops the
    collection up with augmented copies.

    The model is a shallow embedding.  Everything the script takes from
    its environment is an explicit input:
    - the network is a function from URL to response;
    - the [random] module is a tape of raw draws, consumed in order;
    - the thread pool is driven by a second tape that says which of the
      running downloads finishes next;
    - the file system is a finite map from directory path to directory,
      a directory being a finite map from file name to stored image.

    Images are symbolic terms over the PIL operations the script calls,
    so that a stored image records what it was derived from.  A journal
    of the requests issued and of the files read and written is kept
    next to the file system; the script never reads it.

    What the model takes for granted:
    - a file of an image directory holds an image that PIL can open and
      enhance: [Image.open] succeeds on every file that exists,
      [ImageEnhance] accepts its mode (it raises [ValueError] on the
      modes P, 1, I;16 and F), and [img.save] succeeds whenever the
      directory exists;
    - an image directory can be made: the category directory exists and
      no regular file has the name of its [images] entry, so that
      [os.makedirs] does not raise; directories other than the image
      directories are not in the file system of the model;
    - a download acts at once when it finishes (it touches no file but
      its own);
    - [read_csv] gets each file already split into header and records,
      reads a field as missing exactly when its text is one of the
      default NA strings of pandas and as text otherwise (no column is
      turned into numbers), and stands for [pd.read_csv] on the files
      that call accepts ([parses]); a property that depends on the
      parse going through says so in a hypothesis;
    - real numbers stand for floats. *)

From Stdlib Require Import Ascii String DecimalString DecimalNat QArith.
From stdpp Require Import gmap strings list fin_maps.

(** ** Strings: [str.endswith], the [04d] format, [os.path] *)

Module Str.

(** [s.endswith(suffix)] *)
Definition endswith (s suffix : string) : bool :=
  let n := String.length s in
  let k := String.length suffix in
  (k <=? n)%nat && String.eqb (String.substring (n - k) k s) suffix.

Definition decimal (n : nat) : string :=
  NilEmpty.string_of_uint (Nat.to_uint n).

Fixpoint zeros (k : nat) : string :=
  match k with
  | O => ""
  | S k' => String "0"%char (zeros k')
  end.

(** [s.zfill(width)] for a string of digits *)
Definition zfill (width : nat) (s : string) : string :=
  zeros (width - String.length s) +:+ s.

(** [f"{idx:04d}"] for a non-negative [idx] *)
Definition format_04d (idx : nat) : string := zfill 4 (decimal idx).

(** Reading a run of decimal digits back, leading zeros allowed. *)
Definition parse_decimal (s : string) : option nat :=
  Nat.of_uint <$> NilEmpty.uint_of_string s.

(** [os.path.join(a, b)] on POSIX for a relative [b] and an [a] that does
    not end with a separator *)
Definition path_join (a b : string) : string := a +:+ "/" +:+ b.

(** [os.path.basename(p)]: what follows the last separator *)
Fixpoint has_sep (p : string) : bool :=
  match p with
  | "" => false
  | String c rest => Ascii.eqb c "/"%char || has_sep rest
  end.

Fixpoint basename (p : string) : string :=
  match p with
  | "" => ""
  | String c rest =>
      if has_sep rest then basename rest
      else if Ascii.eqb c "/"%char then rest
      else p
  end.

End Str.

(** ** The pandas calls: [read_csv], [concat], [dropna], [unique] *)

Module Pandas.

(** A cell of a frame: a missing value or the text that was read. *)
Inductive value :=
| NaN
| Val (s : string).

#[global] Instance value_eq_dec : EqDecision value.
Proof. solve_decision. Defined.

(** A CSV file as [read_csv] sees it: the header line and the records,
    each a list of fields.  Splitting the text into fields is outside
    the model: blank lines are skipped there, and a file without a
    non-blank line has no header. *)
Record csv_file := {
  csv_header : list string;
  csv_records : list (list string)
}.

(** The texts [read_csv] turns into a missing value by default. *)
Definition STR_NA_VALUES : list string :=
  [ ""; "#N/A"; "#N/A N/A"; "#NA"; "-1.#IND"; "-1.#QNAN"; "-NaN"; "-nan";
    "1.#IND"; "1.#QNAN"; "<NA>"; "N/A"; "NA"; "NULL"; "NaN"; "None";
    "n/a"; "nan"; "null" ].

Definition read_field (s : string) : value :=
  if bool_decide (s ∈ STR_NA_VALUES) then NaN else Val s.

(** A row maps column names to cells; a column without an entry reads
    as [NaN]. *)
Definition row := list (string * value).

Record DataFrame := {
  columns : list string;
  rows : list row
}.

Fixpoint row_get (c : string) (r : row) : value :=
  match r with
  | [] => NaN
  | (k, v) :: r' => if String.eqb k c then v else row_get c r'
  end.

(** [pd.read_csv(f)], for a file the call accepts ([parses] below): a
    record shorter than the header leaves its last columns missing. *)
Definition read_csv (f : csv_file) : DataFrame :=
  {| columns := csv_header f;
     rows := map (fun fields => zip (csv_header f) (read_field <$> fields))
                 (csv_records f) |}.

(** The files [pd.read_csv] accepts and reads as [read_csv] says: there
    is a header line, and no record has more fields than the header.
    Without a header line (an empty file) the call raises
    [EmptyDataError]; with a record longer than the header it raises
    [ParserError] or takes the leading fields as the index. *)
Definition parses (f : csv_file) : bool :=
  match csv_header f with
  | [] => false
  | _ :: _ =>
      forallb (λ fields, (length fields <=? length (csv_header f))%nat)
              (csv_records f)
  end.

(** First occurrences, in order: [Series.unique()], and the column index
    of a concatenation. *)
Fixpoint unique_from {A} `{EqDecision A} (seen l : list A) : list A :=
  match l with
  | [] => []
  | x :: l' =>
      if bool_decide (x ∈ seen) then unique_from seen l'
      else x :: unique_from (x :: seen) l'
  end.

Definition unique {A} `{EqDecision A} (l : list A) : list A :=
  unique_from [] l.

(** [pd.concat(dfs, ignore_index=True)]: the rows of all frames, over the
    union of their columns. *)
Definition concat (dfs : list DataFrame) : DataFrame :=
  {| columns := unique (mjoin (columns <$> dfs));
     rows := mjoin (rows <$> dfs) |}.

(** [df[c]] *)
Definition getitem (df : DataFrame) (c : string) : list value :=
  row_get c <$> rows df.

Definition notna (v : value) : bool :=
  match v with NaN => false | Val _ => true end.

(** [Series.dropna()] *)
Definition dropna (l : list value) : list value := List.filter notna l.

End Pandas.
Export Pandas.

(** ** PIL images, as terms over the operations the script applies *)

Inductive image :=
| Image_open (data : string)
| convert (mode : string) (im : image)
| resize (size : nat * nat) (im : image)
| transpose_FLIP_LEFT_RIGHT (im : image)
| rotate (angle : nat) (im : image)
| Color_enhance (factor : Q) (im : image)
| Brightness_enhance (factor : Q) (im : image).

(** ** The environment a run reads *)

(** What [requests.get(url, timeout=...)] comes back with: nothing in
    time, or a status and a body.  [content] is [Some data] when the body
    decodes as an image. *)
Inductive response :=
| NoResponse
| Response (status_code : nat) (content : option string).

Record env := {
  (** the answer to a request for a URL under a timeout in seconds *)
  http : string -> nat -> response;
  ROOT_DIR : string;
  (** the entries of the root directory, with [os.path.isdir] *)
  root_entries : list (string * bool);
  (** the files of a directory, each with the table [read_csv] reads *)
  dir_files : string -> list (string * csv_file)
}.

(** ** The state a run changes *)

Inductive exn :=
| IndexError
| ValueError
| OSError
| RequestException
| HTTPError
| UnidentifiedImageError.

Inductive message :=
| msg_starting
| msg_processing (species_name : string)
| msg_no_csv (species_name : string)
| msg_column_missing (species_name : string)
| msg_downloading (n : nat) (species_name : string)
| msg_downloaded (n : nat) (species_name : string)
| msg_augmenting (species_name : string)
| msg_summary (species_name : string) (downloaded augmented total : nat)
| msg_all_processed.

(** A directory of stored images, by file name. *)
Abbreviation directory := (gmap string image).

(** A file path is kept as the pair that [os.path.join(dir, name)] joins. *)
Definition path : Type := string * string.

(** What a run does to the outside, in the order it does it. *)
Inductive event :=
| ev_request (url : value)               (** [requests.get(url)] is called *)
| ev_save (p : path) (img : image)       (** [img.save(p)] has written [p] *)
| ev_open (p : path) (img : image).      (** [Image.open(p)] has read [img] *)

Record world := {
  rng : list N;                  (** raw draws the [random] module will make *)
  completions : list nat;        (** which running download finishes next *)
  stdout : list message;
  fs : gmap string directory;    (** image directories, by path *)
  journal : list event
}.

Inductive result (A : Type) :=
| Ret (a : A)
| Raise (e : exn).
Arguments Ret {A} a.
Arguments Raise {A} e.

Definition M (A : Type) : Type := world -> result A * world.

#[global] Instance M_ret : MRet M := fun A a w => (Ret a, w).
#[global] Instance M_bind : MBind M := fun A B f m w =>
  match m w with
  | (Ret a, w') => f a w'
  | (Raise e, w') => (Raise e, w')
  end.

Definition raise {A} (e : exn) : M A := fun w => (Raise e, w).

(** [try: body except Exception: handler] *)
Definition try_except {A} (body : M A) (handler : M A) : M A := fun w =>
  match body w with
  | (Ret a, w') => (Ret a, w')
  | (Raise _, w') => handler w'
  end.

Definition log (m : message) : M unit := fun w =>
  (Ret (), {| rng := rng w; completions := completions w;
              stdout := stdout w ++ [m]; fs := fs w; journal := journal w |}).

Definition record (e : event) : M unit := fun w =>
  (Ret (), {| rng := rng w; completions := completions w;
              stdout := stdout w; fs := fs w; journal := journal w ++ [e] |}).

Definition get_fs : M (gmap string directory) := fun w => (Ret (fs w), w).

Definition put_fs (f : gmap string directory) : M unit := fun w =>
  (Ret (), {| rng := rng w; completions := completions w;
              stdout := stdout w; fs := f; journal := journal w |}).

(** ** File system *)

(** [os.makedirs(p, exist_ok=True)] for the image directory of a
    category: the parent exists and no regular file has the name [p], so
    the call makes the one directory or finds it there. *)
Definition safe_mkdir (p : string) : M unit :=
  f ← get_fs;
  match f !! p with
  | Some _ => mret ()
  | None => put_fs (<[p := ∅]> f)
  end.

(** [os.listdir(p)]: the names in a directory of images *)
Definition listdir (p : string) : M (list string) :=
  f ← get_fs;
  match f !! p with
  | Some d => mret (map_to_list d).*1
  | None => raise OSError
  end.

(** [img.save(p, "JPEG", quality=90)] *)
Definition save (img : image) (p : path) : M unit :=
  f ← get_fs;
  match f !! p.1 with
  | Some d => put_fs (<[p.1 := <[p.2 := img]> d]> f);; record (ev_save p img)
  | None => raise OSError
  end.

(** [Image.open(p)] for a stored file, which holds an image *)
Definition open_file (p : path) : M image :=
  f ← get_fs;
  match f !! p.1 ≫= (.!! p.2) with
  | Some img => record (ev_open p img);; mret img
  | None => raise OSError
  end.

(** ** The [random] module *)

Definition draw : M N := fun w =>
  match rng w with
  | [] => (Ret 0%N, w)
  | k :: t => (Ret k, {| rng := t; completions := completions w;
                         stdout := stdout w; fs := fs w;
                         journal := journal w |})
  end.

(** [random.random()] is [u / 2^53] for the 53-bit [u] returned here. *)
Definition random_random : M N :=
  k ← draw; mret (k mod 2 ^ 53)%N.

Definition randbelow (n : nat) : M nat :=
  k ← draw; mret (N.to_nat k mod n).

(** [random.choice(seq)] *)
Definition choice {A} (seq : list A) : M A :=
  match seq with
  | [] => raise IndexError
  | x :: _ => j ← randbelow (length seq); mret (nth j seq x)
  end.

(** [random.uniform(a, b)], which is [a + (b - a) * random()], over the
    rationals *)
Definition uniform (a b : Q) : M Q :=
  u ← random_random;
  mret (a + (b - a) * (Z.of_N u # 2 ^ 53))%Q.

(** [x[i], x[j] = x[j], x[i]] *)
Definition swap {A} (i j : nat) (x : list A) : list A :=
  match x !! i, x !! j with
  | Some a, Some b => <[i := b]> (<[j := a]> x)
  | _, _ => x
  end.

(** [for i in reversed(range(1, n)): j = randbelow(i + 1); swap], with
    [n] counting down from [len(x)] *)
Fixpoint shuffle_from {A} (n : nat) (x : list A) : M (list A) :=
  match n with
  | 0 | 1 => mret x
  | S (S i' as i) =>
      j ← randbelow (i + 1);
      shuffle_from i (swap i j x)
  end.

(** [random.shuffle(x)] *)
Definition shuffle {A} (x : list A) : M (list A) :=
  shuffle_from (length x) x.

(** ** Configuration *)

Record config := {
  MAX_IMAGES_PER_SPECIES : nat;
  MAX_THREADS : nat;
  TIMEOUT : nat;
  IMAGE_SIZE : nat * nat
}.

(** The constants of the script. *)
Definition CONFIG : config :=
  {| MAX_IMAGES_PER_SPECIES := 1000;
     MAX_THREADS := 16;
     TIMEOUT := 15;
     IMAGE_SIZE := (512, 512) |}.

(** ** The script *)

(** The statuses for which [r.raise_for_status()] raises. *)
Definition error_status (status_code : nat) : bool :=
  (400 <=? status_code)%nat && (status_code <? 600)%nat.
Arguments error_status : simpl never.

Section Script.

Variable E : env.
Variable cfg : config.

(** [download_image(url, save_path)].  [requests.get] raises when no
    response arrives in time (and on a URL that is not a string);
    [Image.open] raises on a body that is not an image. *)
Definition download_image (url : value) (save_path : path) : M bool :=
  try_except
    (record (ev_request url);;
     match url with
     | NaN => raise RequestException
     | Val u =>
         match http E u (TIMEOUT cfg) with
         | NoResponse => raise RequestException
         | Response status_code content =>
             if error_status status_code then raise HTTPError
             else
               match content with
               | None => raise UnidentifiedImageError
               | Some data =>
                   let img := convert "RGB" (Image_open data) in
                   let img := resize (IMAGE_SIZE cfg) img in
                   save img save_path;;
                   mret true
               end
         end
     end)
    (mret false).

(** [augment_image(img)], for an image of a mode [ImageEnhance]
    accepts *)
Definition augment_image (img : image) : M image :=
  u ← random_random;
  let img := if (u <? 2 ^ 52)%N then transpose_FLIP_LEFT_RIGHT img else img in
  angle ← choice [0; 90; 180; 270]%nat;
  let img := rotate angle img in
  f ← uniform 0.7 1.3;
  let img := Color_enhance f img in
  f ← uniform 0.7 1.3;
  let img := Brightness_enhance f img in
  mret img.

(** *** The thread pool

    A download is submitted as its arguments.  At most [max_workers]
    run at a time, taken from the queue in submission order; whenever
    one is to finish, the next entry of [completions] picks which.  A
    download acts on the file system when it finishes: it writes its own
    file only and reads none. *)

Definition task : Type := value * path.

Definition next_completion : M nat := fun w =>
  match completions w with
  | [] => (Ret 0%nat, w)
  | k :: t => (Ret k, {| rng := rng w; completions := t;
                         stdout := stdout w; fs := fs w;
                         journal := journal w |})
  end.

Definition pick {A} (k : nat) (running : list A) : option (A * list A) :=
  let j := (k mod length running)%nat in
  (λ t, (t, delete j running)) <$> running !! j.

(** Nothing is left to start: the [n] running downloads finish. *)
Fixpoint drain {A} (n : nat) (running : list A) : M (list A) :=
  match n with
  | O => mret []
  | S n' =>
      k ← next_completion;
      match pick k running with
      | Some (t, rest) => done ← drain n' rest; mret (t :: done)
      | None => mret []
      end
  end.

(** The order in which the submitted downloads finish. *)
Fixpoint as_completed {A} (max_workers : nat) (pending running : list A)
  : M (list A) :=
  match pending with
  | [] => drain (length running) running
  | t :: pending' =>
      if (length running <? max_workers)%nat
      then as_completed max_workers pending' (running ++ [t])
      else
        k ← next_completion;
        match pick k running with
        | Some (r, rest) =>
            done ← as_completed max_workers pending' (rest ++ [t]);
            mret (r :: done)
        | None => as_completed max_workers pending' [t]
        end
  end.

(** [future.result()] for each future, in the order given *)
Fixpoint results (futures : list task) : M (list bool) :=
  match futures with
  | [] => mret []
  | (url, save_path) :: rest =>
      r ← download_image url save_path;
      rs ← results rest;
      mret (r :: rs)
  end.

(** [[i for i, r in enumerate(rs, start) if r]] *)
Fixpoint true_positions (start : nat) (rs : list bool) : list nat :=
  match rs with
  | [] => []
  | r :: rs' =>
      if r then start :: true_positions (S start) rs'
      else true_positions (S start) rs'
  end.

Definition img_name (species_name : string) (idx : nat) : string :=
  "BugLiteAI_" +:+ species_name +:+ "_Img" +:+ Str.format_04d idx +:+ ".jpg".

(** [[(url, save_path) for idx, url in enumerate(urls, start)]] *)
Fixpoint submissions (images_dir species_name : string) (start : nat)
    (urls : list value) : list task :=
  match urls with
  | [] => []
  | url :: rest =>
      (url, (images_dir, img_name species_name start))
        :: submissions images_dir species_name (S start) rest
  end.

(** The [with ThreadPoolExecutor(...)] block: the list [downloaded]. *)
Definition fetch_all (images_dir species_name : string) (urls : list value)
  : M (list nat) :=
  if (MAX_THREADS cfg =? 0)%nat then raise ValueError
  else
    let futures := submissions images_dir species_name 1 urls in
    completed ← as_completed (MAX_THREADS cfg) futures [];
    rs ← results completed;
    mret (true_positions 1 rs).

(** The [while img_index <= MAX_IMAGES_PER_SPECIES] loop, [n] being the
    number of indices from [img_index] to the bound. *)
Fixpoint augment_loop (images_dir species_name : string)
    (existing_images : list path) (n img_index augment_count : nat)
  : M nat :=
  match n with
  | O => mret augment_count
  | S n' =>
      src_img_path ← choice existing_images;
      img ← open_file src_img_path;
      img ← augment_image img;
      save img (images_dir, img_name species_name img_index);;
      augment_loop images_dir species_name existing_images
                   n' (img_index + 1) (augment_count + 1)
  end.

(** The candidate list: [dropna().unique().tolist()], [random.shuffle],
    [urls[:MAX_IMAGES_PER_SPECIES]]. *)
Definition candidate_urls (df : DataFrame) : M (list value) :=
  let urls := unique (dropna (getitem df "image_url")) in
  urls ← shuffle urls;
  mret (take (MAX_IMAGES_PER_SPECIES cfg) urls).

(** The block under [# Augmentation if needed]: the number of augmented
    images written. *)
Definition top_up (images_dir species_name : string) (downloaded_count : nat)
  : M nat :=
  if (downloaded_count <? MAX_IMAGES_PER_SPECIES cfg)%nat
  then
    log (msg_augmenting species_name);;
    names ← listdir images_dir;
    let existing_images :=
      (λ f, (images_dir, f))
        <$> List.filter (λ f, Str.endswith f ".jpg") names in
    augment_loop images_dir species_name existing_images
      (MAX_IMAGES_PER_SPECIES cfg - downloaded_count)
      (downloaded_count + 1) 0
  else mret 0%nat.

(** The [.csv] entries of the category directory.  The [images]
    subdirectory is listed too, but its name does not end in [.csv]. *)
Definition csv_files (species_path : string) : list (string * csv_file) :=
  List.filter (λ f, Str.endswith f.1 ".csv") (dir_files E species_path).

(** [pd.concat([pd.read_csv(csv) for csv in csv_files], ignore_index=True)] *)
Definition merged (species_path : string) : DataFrame :=
  concat ((λ f, read_csv f.2) <$> csv_files species_path).

(** [process_species(species_path)] *)
Definition process_species (species_path : string) : M unit :=
  let species_name := Str.basename species_path in
  let images_dir := Str.path_join species_path "images" in
  safe_mkdir images_dir;;
  log (msg_processing species_name);;
  match csv_files species_path with
  | [] => log (msg_no_csv species_name)
  | _ :: _ =>
      let df := merged species_path in
      if negb (bool_decide ("image_url" ∈ columns df))
      then log (msg_column_missing species_name)
      else
        urls ← candidate_urls df;
        log (msg_downloading (length urls) species_name);;
        downloaded ← fetch_all images_dir species_name urls;
        let downloaded_count := length downloaded in
        log (msg_downloaded downloaded_count species_name);;
        augment_count ← top_up images_dir species_name downloaded_count;
        log (msg_summary species_name downloaded_count augment_count
                         (MAX_IMAGES_PER_SPECIES cfg))
  end.

(** [for species in species_folders: process_species(species)] *)
Fixpoint for_each (species_folders : list string) : M unit :=
  match species_folders with
  | [] => mret ()
  | species :: rest => process_species species;; for_each rest
  end.

Definition species_folders : list string :=
  (λ d, Str.path_join (ROOT_DIR E) d.1) <$> List.filter snd (root_entries E).

(** [main()] *)
Definition main : M unit :=
  log msg_starting;;
  for_each species_folders;;
  log msg_all_processed.

End Script.

(** ** Vocabulary for the properties *)

Section Vocabulary.

Variable E : env.
Variable cfg : config.

(** A location is a valid fetchable image when the server answers
    without an error status and the body decodes as an image. *)
Definition fetchable (url : value) : bool :=
  match url with
  | NaN => false
  | Val u =>
      match http E u (TIMEOUT cfg) with
      | NoResponse => false
      | Response status_code content =>
          negb (error_status status_code) && bool_decide (is_Some content)
      end
  end.

(** The image [download_image] stores for a location, if any. *)
Definition fetched_image (url : value) : option image :=
  match url with
  | NaN => None
  | Val u =>
      match http E u (TIMEOUT cfg) with
      | Response status_code (Some data) =>
          if error_status status_code then None
          else Some (resize (IMAGE_SIZE cfg) (convert "RGB" (Image_open data)))
      | _ => None
      end
  end.

(** The files written by the events of a journal. *)
Definition saves (j : list event) : list (path * image) :=
  omap (λ e, match e with ev_save p img => Some (p, img) | _ => None end) j.

(** The locations requested by the events of a journal. *)
Definition requests (j : list event) : list value :=
  omap (λ e, match e with ev_request url => Some url | _ => None end) j.

(** The files read by the events of a journal. *)
Definition opens (j : list event) : list (path * image) :=
  omap (λ e, match e with ev_open p img => Some (p, img) | _ => None end) j.

(** One download, as a change of a directory. *)
Definition store (d : directory) (t : task) : directory :=
  match fetched_image t.1 with
  | Some img => <[t.2.2 := img]> d
  | None => d
  end.

(** The events of one download into an existing directory. *)
Definition download_events (t : task) : list event :=
  ev_request t.1 ::
  match fetched_image t.1 with
  | Some img => [ev_save t.2 img]
  | None => []
  end.

(** The writes a batch makes: one for each fetchable candidate, at the
    path named after its position. *)
Definition expected_writes (images_dir species_name : string)
    (urls : list value) : list (path * image) :=
  omap (λ t : task, (λ img, (t.2, img)) <$> fetched_image t.1)
       (submissions images_dir species_name 1 urls).

(** The world after a download into the existing directory [d]. *)
Definition downloaded_world (t : task) (d : directory) (w : world) : world :=
  {| rng := rng w; completions := completions w; stdout := stdout w;
     fs := match fetched_image t.1 with
           | Some _ => <[t.2.1 := store d t]> (fs w)
           | None => fs w
           end;
     journal := journal w ++ download_events t |}.

(** The category has no CSV file, or its merged table has no [image_url]
    column. *)
Definition lacks_metadata (species_path : string) : Prop :=
  csv_files E species_path = []
  ∨ "image_url" ∉ columns (merged E species_path).

(** [pd.read_csv] accepts every CSV file of the category, so that the
    merge of the tables does not raise. *)
Definition metadata_parses (species_path : string) : Prop :=
  Forall (λ f, parses f.2 = true) (csv_files E species_path).

End Vocabulary.

(** An image as [augment_image] returns it. *)
Definition augmented (img : image) : Prop :=
  ∃ f1 f2 angle src,
    img = Brightness_enhance f2 (Color_enhance f1 (rotate angle src)).

(** [w'] differs from [w] in the random draws left, at most. *)
Definition drew (w w' : world) : Prop :=
  completions w' = completions w ∧ stdout w' = stdout w
  ∧ fs w' = fs w ∧ journal w' = journal w.

(** [w'] differs from [w] in the completions left, at most. *)
Definition scheduled (w w' : world) : Prop :=
  rng w' = rng w ∧ stdout w' = stdout w
  ∧ fs w' = fs w ∧ journal w' = journal w.

(** Running [m] removes no directory. *)
Definition keeps_dirs {A} (m : M A) : Prop :=
  ∀ w, dom (fs w) ⊆ dom (fs (m w).2).

(** ** Sample runs *)

Module Sample.

(** Metadata of a category with the locations A, B, an empty field and A
    again. *)
Definition aphid_csv : csv_file :=
  {| csv_header := ["id"; "image_url"];
     csv_records := [["1"; "A"]; ["2"; "B"]; ["3"; ""]; ["4"; "A"]] |}.

(** A table without the [image_url] column. *)
Definition wasp_csv : csv_file :=
  {| csv_header := ["id"; "photo"];
     csv_records := [["1"; "A"]] |}.

(** A root with the categories Aphid (one CSV file), Bee (no CSV file)
    and Wasp (a CSV file without the column), and a plain file. *)
Definition tree (http : string → nat → response) : env :=
  {| http := http;
     ROOT_DIR := "/r";
     root_entries :=
       [("Aphid", true); ("notes.txt", false); ("Bee", true); ("Wasp", true)];
     dir_files := λ p,
       if String.eqb p "/r/Aphid" then [("a.csv", aphid_csv)]
       else if String.eqb p "/r/Wasp" then [("w.csv", wasp_csv)]
       else [] |}.

(** Only B can be fetched. *)
Definition only_B : env :=
  tree (λ u _,
          if String.eqb u "B" then Response 200 (Some "b") else NoResponse).

(** Only A can be fetched. *)
Definition only_A : env :=
  tree (λ u _,
          if String.eqb u "A" then Response 200 (Some "a") else NoResponse).

(** Every request times out. *)
Definition all_time_out : env := tree (λ _ _, NoResponse).

Definition small (target : nat) : config :=
  {| MAX_IMAGES_PER_SPECIES := target; MAX_THREADS := 2;
     TIMEOUT := 15; IMAGE_SIZE := (512, 512) |}.

(** A first run: no image directory yet. *)
Definition fresh (draws : list N) (finishing : list nat) : world :=
  {| rng := draws; completions := finishing; stdout := [];
     fs := ∅; journal := [] |}.

(** The image directory of Aphid exists and is empty. *)
Definition made (draws : list N) (finishing : list nat) : world :=
  {| rng := draws; completions := finishing; stdout := [];
     fs := {[ "/r/Aphid/images" := ∅ ]}; journal := [] |}.

End Sample.

(** ** Vocabulary for further properties *)

(** The names of a directory that the top-up lists as sources. *)
Definition jpg_names (d : directory) : list string :=
  List.filter (λ f, Str.endswith f ".jpg") (map_to_list d).*1.

(** The top-up has indices to fill and no source to fill them from. *)
Definition starved (cfg : config) (d : directory) (downloaded_count : nat)
  : bool :=
  (downloaded_count <? MAX_IMAGES_PER_SPECIES cfg)%nat
  && bool_decide (jpg_names d = []).

(** Running [m] changes the file system along [R] only. *)
Definition preserves (R : relation (gmap string directory)) {A} (m : M A)
  : Prop :=
  ∀ w, R (fs w) (fs (m w).2).

(** Directories outside [P] are the same in [f] and [f']. *)
Definition same_outside (P : string → Prop) (f f' : gmap string directory)
  : Prop :=
  ∀ q, ¬ P q → f' !! q = f !! q.

(** Every file of [f] is still there in [f'], with the same or another
    content. *)
Definition no_file_lost (f f' : gmap string directory) : Prop :=
  ∀ q d, f !! q = Some d → ∃ d', f' !! q = Some d' ∧ dom d ⊆ dom d'.

(** The image directories of the categories [main] goes through. *)
Definition images_dirs (E : env) : list string :=
  (λ p, Str.path_join p "images") <$> species_folders E.

(** ** More sample inputs *)

Module Cases.


(** A single worker. *)
Definition one_worker (target : nat) : config :=
  {| MAX_IMAGES_PER_SPECIES := target; MAX_THREADS := 1;
     TIMEOUT := 15; IMAGE_SIZE := (512, 512) |}.

(** The image directory of Aphid holds one image left by an earlier
    run. *)
Definition rerun (draws : list N) (finishing : list nat) : world :=
  {| rng := draws; completions := finishing; stdout := [];
     fs := {[ "/r/Aphid/images"
              := {[ "old.jpg" := Image_open "old" ]} ]};
     journal := [] |}.

End Cases.

(** * Properties *)

Ltac unfold_M := unfold mbind, M_bind, mret, M_ret, raise, try_except.

(** ** Strings *)

Module StrFacts.
Import Str.

Lemma str_app_nil_l (t : string) : "" +:+ t = t.
Proof. reflexivity. Qed.

Lemma str_app_cons (c : ascii) (s t : string) :
  String c s +:+ t = String c (s +:+ t).
Proof. reflexivity. Qed.

Lemma str_length_app (s t : string) :
  String.length (s +:+ t) = (String.length s + String.length t)%nat.
Proof.
  induction s as [|c s IH]; [done|].
  rewrite str_app_cons. cbn. by rewrite IH.
Qed.

Lemma str_app_assoc (s t u : string) : s +:+ t +:+ u = (s +:+ t) +:+ u.
Proof.
  induction s as [|c s IH]; [done|].
  rewrite !str_app_cons. by rewrite IH.
Qed.

Lemma str_app_inj_r (t s1 s2 : string) : s1 +:+ t = s2 +:+ t → s1 = s2.
Proof.
  revert s2. induction s1 as [|a s1 IH]; intros [|b s2] H;
    rewrite ?str_app_cons, ?str_app_nil_l in H.
  - done.
  - apply (f_equal String.length) in H. cbn in H. rewrite str_length_app in H. lia.
  - apply (f_equal String.length) in H. cbn in H. rewrite str_length_app in H. lia.
  - injection H as -> H. f_equal. by apply IH.
Qed.

Lemma substring_all (s : string) : String.substring 0 (String.length s) s = s.
Proof. induction s as [|c s IH]; cbn; [done|]. by rewrite IH. Qed.

Lemma substring_skip (s t : string) :
  String.substring (String.length s) (String.length t) (s +:+ t) = t.
Proof.
  induction s as [|c s IH]; [apply substring_all|].
  rewrite str_app_cons. cbn. exact IH.
Qed.

Lemma endswith_app (s suffix : string) : endswith (s +:+ suffix) suffix = true.
Proof.
  unfold endswith. rewrite str_length_app.
  replace (String.length s + String.length suffix - String.length suffix)%nat
    with (String.length s) by lia.
  rewrite substring_skip, String.eqb_refl, andb_true_r.
  apply Nat.leb_le. lia.
Qed.

Lemma uint_of_string_zeros (k : nat) (s : string) :
  Nat.of_uint <$> NilEmpty.uint_of_string (zeros k +:+ s)
  = Nat.of_uint <$> NilEmpty.uint_of_string s.
Proof.
  induction k as [|k IH]; [done|].
  cbn [zeros]. rewrite str_app_cons. cbn [NilEmpty.uint_of_string].
  rewrite <- IH.
  by destruct (NilEmpty.uint_of_string (zeros k +:+ s)).
Qed.

Lemma parse_format_04d (idx : nat) : parse_decimal (format_04d idx) = Some idx.
Proof.
  unfold parse_decimal, format_04d, zfill, decimal.
  rewrite uint_of_string_zeros, NilEmpty.usu. cbn.
  by rewrite DecimalNat.Unsigned.of_to.
Qed.

Lemma format_04d_inj (a b : nat) : format_04d a = format_04d b → a = b.
Proof.
  intros H. apply (f_equal parse_decimal) in H.
  rewrite !parse_format_04d in H. by injection H.
Qed.

Example format_04d_7 : format_04d 7 = "0007".
Proof. reflexivity. Qed.

Example format_04d_1000 : format_04d 1000 = "1000".
Proof. reflexivity. Qed.

Example basename_aphid : basename "/r/Aphid" = "Aphid".
Proof. reflexivity. Qed.

Example images_is_no_csv : endswith "images" ".csv" = false.
Proof. reflexivity. Qed.

End StrFacts.

Lemma img_name_inj (name : string) (a b : nat) :
  img_name name a = img_name name b → a = b.
Proof.
  unfold img_name. intros H.
  do 3 apply String.app_inj in H.
  by apply StrFacts.format_04d_inj, (StrFacts.str_app_inj_r ".jpg").
Qed.

Lemma img_name_jpg (name : string) (idx : nat) :
  Str.endswith (img_name name idx) ".jpg" = true.
Proof.
  unfold img_name.
  rewrite !StrFacts.str_app_assoc. apply StrFacts.endswith_app.
Qed.

(** ** Facts about the pandas calls *)

Lemma unique_from_elem {A} `{EqDecision A} (seen l : list A) (x : A) :
  x ∈ unique_from seen l ↔ x ∈ l ∧ x ∉ seen.
Proof.
  revert seen. induction l as [|y l IH]; intros seen; cbn.
  - rewrite elem_of_nil. tauto.
  - case_bool_decide as Hy.
    + rewrite IH, elem_of_cons. split; [tauto|]. intros [[->|?] ?]; tauto.
    + rewrite !elem_of_cons, IH, not_elem_of_cons.
      destruct (decide (x = y)) as [->|]; tauto.
Qed.

Lemma unique_from_NoDup {A} `{EqDecision A} (seen l : list A) :
  NoDup (unique_from seen l).
Proof.
  revert seen. induction l as [|y l IH]; intros seen; cbn.
  - constructor.
  - case_bool_decide; [apply IH|].
    constructor; [|apply IH].
    rewrite unique_from_elem, not_elem_of_cons. tauto.
Qed.

Lemma unique_elem {A} `{EqDecision A} (l : list A) (x : A) :
  x ∈ unique l ↔ x ∈ l.
Proof. unfold unique. rewrite unique_from_elem, elem_of_nil. tauto. Qed.

Lemma dropna_elem (l : list value) (v : value) :
  v ∈ dropna l ↔ v ∈ l ∧ v ≠ NaN.
Proof.
  unfold dropna. rewrite !list_elem_of_In, filter_In, <- list_elem_of_In.
  destruct v; cbn; intuition congruence.
Qed.

Lemma read_field_Val (s t : string) :
  read_field s = Val t → t = s ∧ s ∉ STR_NA_VALUES.
Proof. unfold read_field. case_bool_decide; [done|]. by intros [= ->]. Qed.

Lemma row_get_read (c : string) (header fields : list string) (t : string) :
  row_get c (zip header (read_field <$> fields)) = Val t →
  t ∈ fields ∧ t ∉ STR_NA_VALUES.
Proof.
  revert fields. induction header as [|h header IH]; intros [|f fields]; cbn; try done.
  destruct (String.eqb h c).
  - intros [-> ?]%read_field_Val. rewrite elem_of_cons. tauto.
  - intros ?%IH. rewrite elem_of_cons. tauto.
Qed.

Lemma getitem_merged_Val (files : list (string * csv_file)) (c t : string) :
  Val t ∈ getitem (concat ((λ f, read_csv f.2) <$> files)) c →
  t ∉ STR_NA_VALUES.
Proof.
  unfold getitem, concat; cbn.
  intros (r & Hr & Hin)%list_elem_of_fmap.
  apply list_elem_of_join in Hin as (rs & Hin & Hrs).
  apply list_elem_of_fmap in Hrs as (df & -> & Hdf).
  apply list_elem_of_fmap in Hdf as (f & -> & _).
  cbn in Hin. apply list_elem_of_fmap in Hin as (fields & -> & _).
  symmetry in Hr. by apply row_get_read in Hr as [_ ?].
Qed.

(** ** Facts about the [random] module *)

Lemma drew_refl w : drew w w.
Proof. done. Qed.

Lemma drew_trans w1 w2 w3 : drew w1 w2 → drew w2 w3 → drew w1 w3.
Proof. unfold drew. intuition congruence. Qed.

Lemma draw_spec w : ∃ k w', draw w = (Ret k, w') ∧ drew w w'.
Proof. unfold draw. destruct (rng w); by eexists _, _. Qed.

Lemma randbelow_spec n w :
  ∃ j w', randbelow n w = (Ret j, w') ∧ drew w w' ∧ (0 < n → j < n)%nat.
Proof.
  unfold randbelow, mbind, M_bind, mret, M_ret.
  destruct (draw_spec w) as (k & w' & -> & ?).
  eexists _, _. split_and!; [done..|].
  intros. apply Nat.mod_upper_bound. lia.
Qed.

Lemma swap_Permutation {A} (i j : nat) (x : list A) : swap i j x ≡ₚ x.
Proof.
  unfold swap.
  destruct (x !! i) as [a|] eqn:Hi; [|done].
  destruct (x !! j) as [b|] eqn:Hj; [|done].
  by apply Permutation_insert_swap.
Qed.

Lemma shuffle_from_step {A} (i : nat) (x : list A) :
  shuffle_from (S (S i)) x
  = (j ← randbelow (S i + 1); shuffle_from (S i) (swap (S i) j x)).
Proof. reflexivity. Qed.

Lemma shuffle_from_spec {A} (n : nat) (x : list A) w :
  ∃ y w', shuffle_from n x w = (Ret y, w') ∧ drew w w' ∧ y ≡ₚ x.
Proof.
  revert x w. induction n as [|n IH]; intros x w; [by eexists _, _|].
  destruct n as [|i]; [by eexists _, _|].
  rewrite shuffle_from_step. unfold mbind, M_bind.
  destruct (randbelow_spec (S i + 1) w) as (j & w1 & -> & Hw1 & _).
  destruct (IH (swap (S i) j x) w1) as (y & w2 & -> & Hw2 & Hy).
  eexists _, _. split_and!; [done|by eapply drew_trans|].
  by rewrite Hy, swap_Permutation.
Qed.

Lemma shuffle_spec {A} (x : list A) w :
  ∃ y w', shuffle x w = (Ret y, w') ∧ drew w w' ∧ y ≡ₚ x.
Proof. apply shuffle_from_spec. Qed.

Lemma candidate_urls_spec cfg (df : DataFrame) w :
  ∃ urls w', candidate_urls cfg df w = (Ret urls, w') ∧ drew w w'
    ∧ (length urls ≤ MAX_IMAGES_PER_SPECIES cfg)%nat
    ∧ NoDup urls
    ∧ ∀ v, v ∈ urls → v ∈ getitem df "image_url" ∧ v ≠ NaN.
Proof.
  unfold candidate_urls, mbind, M_bind, mret, M_ret.
  destruct (shuffle_spec (unique (dropna (getitem df "image_url"))) w)
    as (y & w' & -> & Hw & Hy).
  eexists _, _. split_and!; [done..| | |].
  - rewrite length_take. lia.
  - apply (sublist_NoDup _ y); [|apply sublist_take].
    rewrite Hy. apply unique_from_NoDup.
  - intros v Hv%subseteq_take.
    rewrite Hy in Hv. by apply unique_elem, dropna_elem in Hv.
Qed.

(** ** Downloads *)

Section Download.

Variable E : env.
Variable cfg : config.

Lemma fetchable_fetched (url : value) :
  fetchable E cfg url = true ↔ is_Some (fetched_image E cfg url).
Proof.
  unfold fetchable, fetched_image. destruct url as [|u].
  { split; [intros [=]|intros [? [=]]]. }
  destruct (http E u (TIMEOUT cfg)) as [|code [data|]].
  - split; [intros [=]|intros [? [=]]].
  - destruct (error_status code); cbn.
    + split; [intros [=]|intros [? [=]]].
    + split; eauto.
  - rewrite andb_false_r. split; [intros [=]|intros [? [=]]].
Qed.

Lemma download_image_spec (url : value) (p : path) (d : directory) w :
  fs w !! p.1 = Some d →
  download_image E cfg url p w
  = (Ret (fetchable E cfg url), downloaded_world E cfg (url, p) d w).
Proof.
  intros Hd.
  unfold download_image, downloaded_world, download_events, store,
    fetchable, fetched_image, save, record, get_fs, put_fs.
  unfold_M. cbn.
  destruct url as [|u]; cbn; [done|].
  destruct (http E u (TIMEOUT cfg)) as [|code [data|]]; cbn; [done| |].
  - destruct (error_status code); cbn; [done|].
    rewrite Hd. cbn. by rewrite <- app_assoc.
  - by destruct (error_status code).
Qed.

Lemma results_spec (images_dir : string) (ts : list task) (d : directory) w :
  Forall (λ t : task, t.2.1 = images_dir) ts →
  fs w !! images_dir = Some d →
  results E cfg ts w
  = (Ret (fetchable E cfg ∘ fst <$> ts),
     {| rng := rng w; completions := completions w; stdout := stdout w;
        fs := <[images_dir := foldl (store E cfg) d ts]> (fs w);
        journal := journal w ++ (ts ≫= download_events E cfg) |}).
Proof.
  intros Hts. revert d w.
  induction Hts as [|t ts Ht _ IH]; intros d w Hd.
  - cbn. rewrite insert_id, app_nil_r by done. by destruct w.
  - destruct t as [url p]. cbn [results]. unfold_M. cbn in Ht.
    rewrite (download_image_spec _ _ d) by (by rewrite Ht).
    set (t := (url, p)).
    assert (fs (downloaded_world E cfg t d w) !! images_dir = Some (store E cfg d t))
      as Hd1.
    { unfold downloaded_world, store; cbn.
      destruct (fetched_image E cfg url); [|done].
      by rewrite Ht, lookup_insert_eq. }
    rewrite (IH _ _ Hd1). cbn. do 2 f_equal.
    + destruct (fetched_image E cfg url); [|done].
      by rewrite Ht, insert_insert_eq.
    + by rewrite <- app_assoc.
Qed.

End Download.

(** ** The thread pool *)

Lemma scheduled_trans w1 w2 w3 :
  scheduled w1 w2 → scheduled w2 w3 → scheduled w1 w3.
Proof. unfold scheduled. intuition congruence. Qed.

Lemma next_completion_spec w :
  ∃ k w', next_completion w = (Ret k, w') ∧ scheduled w w'.
Proof. unfold next_completion. destruct (completions w); by eexists _, _. Qed.

Lemma pick_nil {A} (k : nat) : pick k (@nil A) = None.
Proof. unfold pick. by rewrite lookup_nil. Qed.

Lemma pick_cons {A} (k : nat) (x : A) (running : list A) :
  ∃ t rest, pick k (x :: running) = Some (t, rest)
    ∧ x :: running ≡ₚ t :: rest ∧ length rest = length running.
Proof.
  unfold pick.
  assert (k mod length (x :: running) < length (x :: running))%nat as Hlt
    by (apply Nat.mod_upper_bound; cbn; lia).
  apply lookup_lt_is_Some in Hlt as [t Ht].
  rewrite Ht. eexists _, _. split_and!; [done| |].
  - by apply delete_Permutation.
  - apply lookup_lt_Some in Ht as Hlt'.
    pose proof (length_delete (x :: running) _ (mk_is_Some _ _ Ht)) as Hlen.
    cbn in *. lia.
Qed.

Lemma drain_spec {A} (n : nat) (running : list A) w :
  n = length running →
  ∃ order w', drain n running w = (Ret order, w')
    ∧ scheduled w w' ∧ order ≡ₚ running.
Proof.
  revert running w. induction n as [|n IH]; intros running w Hn.
  - destruct running; [|done]. by eexists _, _.
  - destruct running as [|x running]; [done|].
    cbn [drain]. unfold_M.
    destruct (next_completion_spec w) as (k & w1 & -> & Hw1).
    destruct (pick_cons k x running) as (t & rest & -> & Hperm & Hlen).
    destruct (IH rest w1) as (order & w2 & -> & Hw2 & Horder).
    { cbn in Hn. lia. }
    eexists _, _. split_and!; [done|by eapply scheduled_trans|].
    by rewrite Horder.
Qed.

Lemma as_completed_spec {A} (max_workers : nat) (pending running : list A) w :
  ∃ order w', as_completed max_workers pending running w = (Ret order, w')
    ∧ scheduled w w' ∧ order ≡ₚ running ++ pending.
Proof.
  revert running w. induction pending as [|t pending IH]; intros running w.
  - cbn [as_completed]. rewrite app_nil_r. by apply drain_spec.
  - cbn [as_completed]. destruct (_ <? _)%nat.
    + destruct (IH (running ++ [t]) w) as (order & w' & -> & Hw & Horder).
      eexists _, _. split_and!; [done..|]. by rewrite Horder, <- app_assoc.
    + unfold_M.
      destruct (next_completion_spec w) as (k & w1 & -> & Hw1).
      destruct running as [|x running].
      * rewrite pick_nil.
        destruct (IH [t] w1) as (order & w' & -> & Hw & Horder).
        eexists _, _. split_and!; [done|by eapply scheduled_trans|done].
      * destruct (pick_cons k x running) as (r & rest & -> & Hperm & _).
        destruct (IH (rest ++ [t]) w1) as (order & w' & -> & Hw & Horder).
        eexists _, _. split_and!; [done|by eapply scheduled_trans|].
        rewrite Horder, Hperm. cbn. by rewrite <- app_assoc.
Qed.

Section Fetch.

Variable E : env.
Variable cfg : config.

Lemma submissions_dir (images_dir species_name : string) (start : nat)
    (urls : list value) :
  Forall (λ t : task, t.2.1 = images_dir)
         (submissions images_dir species_name start urls).
Proof.
  revert start. induction urls as [|url urls IH]; intros start; cbn;
    constructor; [done|apply IH].
Qed.

Lemma submissions_urls (images_dir species_name : string) (start : nat)
    (urls : list value) :
  (submissions images_dir species_name start urls).*1 = urls.
Proof.
  revert start. induction urls as [|url urls IH]; intros start; cbn;
    [done|by rewrite IH].
Qed.

Lemma submissions_names (images_dir species_name : string) (start : nat)
    (urls : list value) :
  (λ t : task, t.2.2) <$> submissions images_dir species_name start urls
  = img_name species_name <$> seq start (length urls).
Proof.
  revert start. induction urls as [|url urls IH]; intros start; cbn;
    [done|by rewrite IH].
Qed.

Lemma submissions_lookup (images_dir species_name : string) (start i : nat)
    (urls : list value) :
  submissions images_dir species_name start urls !! i
  = (λ url, (url, (images_dir, img_name species_name (start + i))))
      <$> urls !! i.
Proof.
  revert start i. induction urls as [|url urls IH]; intros start [|i]; cbn;
    [done|done|by rewrite Nat.add_0_r|].
  rewrite IH. by replace (S start + i) with (start + S i) by lia.
Qed.

Lemma submissions_NoDup (images_dir species_name : string) (start : nat)
    (urls : list value) :
  NoDup ((λ t : task, t.2.2)
           <$> submissions images_dir species_name start urls).
Proof.
  rewrite submissions_names. apply NoDup_fmap_2; [|apply NoDup_seq].
  intros a b. apply img_name_inj.
Qed.

Lemma store_comm (d : directory) (t1 t2 : task) :
  t1.2.2 ≠ t2.2.2 →
  store E cfg (store E cfg d t1) t2 = store E cfg (store E cfg d t2) t1.
Proof.
  intros Hne. unfold store.
  destruct (fetched_image E cfg t1.1), (fetched_image E cfg t2.1); try done.
  by apply insert_insert_ne.
Qed.

Lemma foldl_store_perm (ts ts' : list task) (d : directory) :
  ts ≡ₚ ts' →
  NoDup ((λ t : task, t.2.2) <$> ts) →
  foldl (store E cfg) d ts = foldl (store E cfg) d ts'.
Proof.
  intros Hperm. revert d.
  induction Hperm as [|t ts ts' _ IH|t1 t2 ts|ts1 ts2 ts3 H12 IH12 H23 IH23];
    intros d Hnd.
  - done.
  - cbn. apply IH. by apply NoDup_cons in Hnd as [_ ?].
  - cbn. f_equal. apply store_comm.
    cbn in Hnd. apply NoDup_cons in Hnd as [Hnotin _].
    rewrite not_elem_of_cons in Hnotin. intros Heq. by destruct Hnotin.
  - rewrite IH12 by done. apply IH23. by rewrite <- H12.
Qed.

Lemma length_true_positions (start : nat) (rs : list bool) :
  length (true_positions start rs) = length (filter (λ r, r = true) rs).
Proof.
  revert start. induction rs as [|[|] rs IH]; intros start; cbn -[filter];
    [done| |].
  - rewrite filter_cons_True by done. cbn -[filter]. by rewrite IH.
  - rewrite filter_cons_False by done. by rewrite IH.
Qed.

Lemma filter_fmap_fetchable (ts : list task) :
  length (filter (λ r, r = true) (fetchable E cfg ∘ fst <$> ts))
  = length (filter (λ t : task, fetchable E cfg t.1 = true) ts).
Proof.
  induction ts as [|t ts IH]; [done|]. cbn -[filter].
  destruct (fetchable E cfg t.1) eqn:Hf.
  - rewrite !filter_cons_True by done. cbn -[filter]. by rewrite IH.
  - rewrite !filter_cons_False by (by rewrite ?Hf). done.
Qed.

Lemma filter_submissions (images_dir species_name : string) (start : nat)
    (urls : list value) :
  length (filter (λ t : task, fetchable E cfg t.1 = true)
                 (submissions images_dir species_name start urls))
  = length (List.filter (fetchable E cfg) urls).
Proof.
  revert start. induction urls as [|url urls IH]; intros start; [done|].
  cbn -[filter]. destruct (fetchable E cfg url) eqn:Hf.
  - rewrite filter_cons_True by done. cbn -[filter]. by rewrite IH.
  - rewrite filter_cons_False by (by cbn; rewrite Hf). by rewrite IH.
Qed.

(** The batch of downloads: what [fetch_all] returns and the world it
    leaves, for any order of completion. *)
Lemma fetch_all_spec (images_dir species_name : string) (urls : list value)
    (d : directory) w :
  (1 ≤ MAX_THREADS cfg)%nat →
  fs w !! images_dir = Some d →
  ∃ downloaded order w',
    fetch_all E cfg images_dir species_name urls w = (Ret downloaded, w')
    ∧ length downloaded = length (List.filter (fetchable E cfg) urls)
    ∧ order ≡ₚ submissions images_dir species_name 1 urls
    ∧ rng w' = rng w ∧ stdout w' = stdout w
    ∧ fs w' = <[images_dir :=
                  foldl (store E cfg) d
                        (submissions images_dir species_name 1 urls)]> (fs w)
    ∧ journal w' = journal w ++ (order ≫= download_events E cfg).
Proof.
  intros Hthreads Hd. unfold fetch_all.
  destruct (Nat.eqb_spec (MAX_THREADS cfg) 0) as [?|_]; [lia|].
  unfold_M.
  destruct (as_completed_spec (MAX_THREADS cfg)
              (submissions images_dir species_name 1 urls) [] w)
    as (order & w1 & -> & (Hrng & Hout & Hfs & Hj) & Horder).
  cbn in Horder.
  rewrite (results_spec E cfg images_dir order d).
  - eexists _, order, _. split_and!; [done| |done|done..| |].
    + rewrite length_true_positions, filter_fmap_fetchable, Horder.
      apply filter_submissions.
    + cbn. rewrite Hfs. f_equal. apply foldl_store_perm; [done|].
      rewrite Horder. apply submissions_NoDup.
    + cbn. by rewrite Hj.
  - rewrite Forall_forall. intros t Ht. rewrite Horder in Ht.
    revert t Ht. rewrite <- Forall_forall. apply submissions_dir.
  - by rewrite Hfs.
Qed.

End Fetch.

(** ** Augmentation *)

Lemma choice_spec {A} (seq : list A) w :
  seq ≠ [] →
  ∃ x w', choice seq w = (Ret x, w') ∧ drew w w' ∧ x ∈ seq.
Proof.
  intros Hne. destruct seq as [|a seq]; [done|].
  unfold choice. unfold_M.
  destruct (randbelow_spec (length (a :: seq)) w) as (j & w' & -> & Hw & Hj).
  eexists _, _. split_and!; [done..|].
  apply list_elem_of_In, nth_In, Hj. cbn. lia.
Qed.

Lemma random_random_spec w :
  ∃ u w', random_random w = (Ret u, w') ∧ drew w w'.
Proof.
  unfold random_random. unfold_M.
  destruct (draw_spec w) as (k & w' & -> & Hw). by eexists _, _.
Qed.

Lemma uniform_spec (a b : Q) w :
  ∃ f w', uniform a b w = (Ret f, w') ∧ drew w w'.
Proof.
  unfold uniform. unfold_M.
  destruct (random_random_spec w) as (u & w' & -> & Hw). by eexists _, _.
Qed.

Lemma augment_image_spec (img : image) w :
  ∃ img' w', augment_image img w = (Ret img', w') ∧ drew w w'
    ∧ augmented img'.
Proof.
  unfold augment_image. unfold_M.
  destruct (random_random_spec w) as (u & w1 & -> & Hw1).
  destruct (choice_spec [0; 90; 180; 270]%nat w1) as (a & w2 & -> & Hw2 & _);
    [done|].
  destruct (uniform_spec 0.7 1.3 w2) as (f1 & w3 & -> & Hw3).
  destruct (uniform_spec 0.7 1.3 w3) as (f2 & w4 & -> & Hw4).
  eexists _, _. split_and!; [done| |by eexists _, _, _, _].
  eauto using drew_trans.
Qed.

Lemma open_file_spec (p : path) (d : directory) (img : image) w :
  fs w !! p.1 = Some d → d !! p.2 = Some img →
  open_file p w
  = (Ret img, {| rng := rng w; completions := completions w;
                 stdout := stdout w; fs := fs w;
                 journal := journal w ++ [ev_open p img] |}).
Proof.
  intros Hd Himg. unfold open_file, get_fs, record. unfold_M.
  rewrite Hd. cbn. by rewrite Himg.
Qed.

Lemma save_spec (img : image) (p : path) (d : directory) w :
  fs w !! p.1 = Some d →
  save img p w
  = (Ret (), {| rng := rng w; completions := completions w;
                stdout := stdout w; fs := <[p.1 := <[p.2 := img]> d]> (fs w);
                journal := journal w ++ [ev_save p img] |}).
Proof.
  intros Hd. unfold save, get_fs, put_fs, record. unfold_M. by rewrite Hd.
Qed.

Lemma saves_cons (e : event) (j : list event) :
  saves (e :: j)
  = match e with ev_save p img => (p, img) :: saves j | _ => saves j end.
Proof. by destruct e. Qed.

Lemma requests_cons (e : event) (j : list event) :
  requests (e :: j)
  = match e with ev_request url => url :: requests j | _ => requests j end.
Proof. by destruct e. Qed.

Lemma opens_cons (e : event) (j : list event) :
  opens (e :: j)
  = match e with ev_open p img => (p, img) :: opens j | _ => opens j end.
Proof. by destruct e. Qed.

Section Augment.

Variable E : env.
Variable cfg : config.

Lemma augment_loop_spec (images_dir species_name : string)
    (existing_images : list path) (n img_index augment_count : nat)
    (d : directory) w :
  existing_images ≠ [] →
  Forall (λ p : path, p.1 = images_dir ∧ is_Some (d !! p.2)) existing_images →
  fs w !! images_dir = Some d →
  ∃ j d' w',
    augment_loop images_dir species_name existing_images
                 n img_index augment_count w
    = (Ret (augment_count + n), w')
    ∧ completions w' = completions w ∧ stdout w' = stdout w
    ∧ fs w' = <[images_dir := d']> (fs w)
    ∧ journal w' = journal w ++ j
    ∧ (saves j).*1
      = (λ i, (images_dir, img_name species_name i)) <$> seq img_index n
    ∧ Forall (λ s : path * image, augmented s.2) (saves j)
    ∧ requests j = []
    ∧ Forall (λ o : path * image, o.1 ∈ existing_images) (opens j)
    ∧ dom d' = dom d ∪ list_to_set (img_name species_name <$> seq img_index n).
Proof.
  intros Hne. revert img_index augment_count d w.
  induction n as [|n IH]; intros img_index augment_count d w Hex Hd.
  - exists [], d, w. cbn. rewrite insert_id, app_nil_r, Nat.add_0_r by done.
    split_and!; try done. by rewrite union_empty_r_L.
  - cbn [augment_loop]. unfold_M.
    destruct (choice_spec existing_images w Hne)
      as (src & w1 & -> & (Hc1 & Ho1 & Hf1 & Hj1) & Hsrc).
    rewrite Forall_forall in Hex.
    destruct (Hex src Hsrc) as [Hdir [img Himg]].
    rewrite (open_file_spec src d img) by (by rewrite ?Hdir, ?Hf1).
    match goal with |- context [augment_image img ?w] =>
      destruct (augment_image_spec img w)
        as (img' & w2 & -> & (Hc2 & Ho2 & Hf2 & Hj2) & Himg')
    end.
    cbn in Hc2, Ho2, Hf2, Hj2.
    rewrite (save_spec img' _ d) by (by cbn; rewrite Hf2, Hf1).
    match goal with |- context [augment_loop _ _ _ _ _ _ ?w] =>
      destruct (IH (img_index + 1) (augment_count + 1)
                   (<[img_name species_name img_index := img']> d) w)
        as (j & d' & w3 & -> & Hc3 & Ho3 & Hf3 & Hj3 & Hsaves & Haug & Hreq
            & Hopens & Hdom)
    end.
    { rewrite Forall_forall. intros p Hp. destruct (Hex p Hp) as [? ?].
      split; [done|]. rewrite lookup_insert_is_Some'. by right. }
    { cbn. by rewrite lookup_insert_eq. }
    cbn in Hc3, Ho3, Hf3, Hj3.
    exists (ev_open src img
              :: ev_save (images_dir, img_name species_name img_index) img'
              :: j), d', w3.
    split_and!.
    + do 2 f_equal. lia.
    + congruence.
    + congruence.
    + rewrite Hf3, Hf2, Hf1. by rewrite insert_insert_eq.
    + rewrite Hj3, Hj2, Hj1. by rewrite <- !app_assoc.
    + rewrite !saves_cons. cbn. rewrite Hsaves. by rewrite Nat.add_1_r.
    + rewrite !saves_cons. by constructor.
    + by rewrite !requests_cons.
    + rewrite !opens_cons. by constructor.
    + rewrite Hdom, dom_insert_L. cbn. rewrite Nat.add_1_r.
      by rewrite (comm_L (∪) {[_]} (dom d)), <- (assoc_L (∪)).
Qed.

End Augment.

Lemma elem_of_listing (d : directory) (f : string) :
  f ∈ (map_to_list d).*1 ↔ is_Some (d !! f).
Proof.
  rewrite list_elem_of_fmap. split.
  - intros ([f' img] & -> & Hin). apply elem_of_map_to_list in Hin. by eexists.
  - intros [img Himg]. exists (f, img). split; [done|].
    by apply elem_of_map_to_list.
Qed.

Section TopUp.

Variable E : env.
Variable cfg : config.

Lemma foldl_store_keeps (d : directory) (ts : list task) (f : string) :
  is_Some (d !! f) → is_Some (foldl (store E cfg) d ts !! f).
Proof.
  revert d. induction ts as [|t ts IH]; intros d Hf; [done|].
  cbn. apply IH. unfold store. destruct (fetched_image E cfg t.1); [|done].
  rewrite lookup_insert_is_Some'. by right.
Qed.

Lemma foldl_store_stored (d : directory) (ts : list task) (t : task) :
  t ∈ ts → fetchable E cfg t.1 = true →
  is_Some (foldl (store E cfg) d ts !! t.2.2).
Proof.
  intros Hin Hf. revert d.
  induction ts as [|t' ts IH]; intros d; [by apply elem_of_nil in Hin|].
  apply elem_of_cons in Hin as [<-|Hin]; cbn.
  - apply foldl_store_keeps. unfold store.
    apply (fetchable_fetched E cfg) in Hf as [img ->].
    rewrite lookup_insert_is_Some'. by left.
  - by apply IH.
Qed.

Lemma top_up_spec (images_dir species_name f : string) (downloaded_count : nat)
    (d : directory) w :
  (downloaded_count < MAX_IMAGES_PER_SPECIES cfg)%nat →
  fs w !! images_dir = Some d →
  is_Some (d !! f) → Str.endswith f ".jpg" = true →
  ∃ j d' w',
    top_up cfg images_dir species_name downloaded_count w
    = (Ret (MAX_IMAGES_PER_SPECIES cfg - downloaded_count), w')
    ∧ completions w' = completions w
    ∧ stdout w' = stdout w ++ [msg_augmenting species_name]
    ∧ fs w' = <[images_dir := d']> (fs w)
    ∧ journal w' = journal w ++ j
    ∧ (saves j).*1
      = (λ i, (images_dir, img_name species_name i))
          <$> seq (downloaded_count + 1)
                  (MAX_IMAGES_PER_SPECIES cfg - downloaded_count)
    ∧ Forall (λ s : path * image, augmented s.2) (saves j)
    ∧ requests j = []
    ∧ Forall (λ o : path * image, o.1.1 = images_dir ∧ is_Some (d !! o.1.2))
             (opens j)
    ∧ dom d' = dom d ∪ list_to_set
        (img_name species_name
           <$> seq (downloaded_count + 1)
                   (MAX_IMAGES_PER_SPECIES cfg - downloaded_count)).
Proof.
  intros Hlt Hd Hf Hjpg. unfold top_up.
  apply Nat.ltb_lt in Hlt as ->.
  unfold log, listdir, get_fs. unfold_M. cbn. rewrite Hd.
  set (existing_images := (λ f0, (images_dir, f0)) <$> _).
  assert (Forall (λ p : path, p.1 = images_dir ∧ is_Some (d !! p.2))
                 existing_images) as Hex.
  { rewrite Forall_forall. intros p (g & -> & Hg)%list_elem_of_fmap.
    split; [done|]. cbn.
    apply list_elem_of_In, filter_In in Hg as [Hg _].
    by apply list_elem_of_In, elem_of_listing in Hg. }
  assert (existing_images ≠ []) as Hne.
  { assert ((images_dir, f) ∈ existing_images) as Hin;
      [|by intros Heq; rewrite Heq in Hin; apply elem_of_nil in Hin].
    apply list_elem_of_fmap. exists f. split; [done|].
    apply list_elem_of_In, filter_In. split; [|done].
    by apply list_elem_of_In, elem_of_listing. }
  match goal with |- context [augment_loop _ _ _ _ _ _ ?w0] =>
    destruct (augment_loop_spec images_dir species_name existing_images
                (MAX_IMAGES_PER_SPECIES cfg - downloaded_count)
                (downloaded_count + 1) 0 d w0 Hne Hex Hd)
      as (j & d' & w' & -> & Hc & Ho & Hfs & Hj & Hsaves & Haug & Hreq
          & Hopens & Hdom)
  end.
  exists j, d', w'. cbn in Hc, Ho, Hfs, Hj.
  split_and!; try done.
  eapply Forall_impl; [exact Hopens|]. cbn. intros o Ho'.
  rewrite Forall_forall in Hex. by apply Hex in Ho'.
Qed.

End TopUp.

(** ** Directories are never removed *)

Create HintDb keeps.

Lemma keeps_ret {A} (a : A) : keeps_dirs (mret a).
Proof. by intros w. Qed.

Lemma keeps_raise {A} (e : exn) : keeps_dirs (@raise A e).
Proof. by intros w. Qed.

Lemma keeps_bind {A B} (m : M A) (f : A → M B) :
  keeps_dirs m → (∀ a, keeps_dirs (f a)) → keeps_dirs (m ≫= f).
Proof.
  intros Hm Hf w. specialize (Hm w). unfold_M.
  destruct (m w) as [[a|e] w1]; cbn in *; [|done].
  etrans; [exact Hm|apply Hf].
Qed.

Lemma keeps_try {A} (body handler : M A) :
  keeps_dirs body → keeps_dirs handler → keeps_dirs (try_except body handler).
Proof.
  intros Hb Hh w. specialize (Hb w). unfold_M.
  destruct (body w) as [[a|e] w1]; cbn in *; [done|].
  etrans; [exact Hb|apply Hh].
Qed.

Lemma keeps_log (m : message) : keeps_dirs (log m).
Proof. by intros w. Qed.

Lemma keeps_record (e : event) : keeps_dirs (record e).
Proof. by intros w. Qed.

Lemma keeps_draw : keeps_dirs draw.
Proof. intros w. unfold draw. by destruct (rng w). Qed.

Lemma keeps_next_completion : keeps_dirs next_completion.
Proof. intros w. unfold next_completion. by destruct (completions w). Qed.

Lemma keeps_safe_mkdir (p : string) : keeps_dirs (safe_mkdir p).
Proof.
  intros w. unfold safe_mkdir, get_fs, put_fs. unfold_M.
  destruct (fs w !! p); cbn; [done|]. rewrite dom_insert_L. set_solver.
Qed.

Lemma keeps_listdir (p : string) : keeps_dirs (listdir p).
Proof. intros w. unfold listdir, get_fs. unfold_M. by destruct (fs w !! p). Qed.

Lemma keeps_save (img : image) (p : path) : keeps_dirs (save img p).
Proof.
  intros w. unfold save, get_fs, put_fs, record. unfold_M.
  destruct (fs w !! p.1); cbn; [|done]. rewrite dom_insert_L. set_solver.
Qed.

Lemma keeps_open_file (p : path) : keeps_dirs (open_file p).
Proof.
  intros w. unfold open_file, get_fs, record. unfold_M.
  destruct (fs w !! p.1) as [d|]; cbn; [|done]. by destruct (d !! p.2).
Qed.

#[export] Hint Resolve keeps_ret keeps_raise keeps_log keeps_record keeps_draw
  keeps_next_completion keeps_safe_mkdir keeps_listdir keeps_save
  keeps_open_file : keeps.

Ltac keeps_step :=
  match goal with
  | |- keeps_dirs (mbind _ _) => apply keeps_bind; [|intros ?]
  | |- keeps_dirs (_ ≫= _) => apply keeps_bind; [|intros ?]
  | |- keeps_dirs (try_except _ _) => apply keeps_try
  | |- keeps_dirs (match ?x with _ => _ end) => destruct x
  | |- keeps_dirs (if ?b then _ else _) => destruct b
  | |- keeps_dirs _ => solve [auto with keeps]
  end.

Ltac keeps := repeat keeps_step.

Lemma keeps_randbelow (n : nat) : keeps_dirs (randbelow n).
Proof. unfold randbelow. keeps. Qed.

Lemma keeps_random_random : keeps_dirs random_random.
Proof. unfold random_random. keeps. Qed.

#[export] Hint Resolve keeps_randbelow keeps_random_random : keeps.

Lemma keeps_choice {A} (seq : list A) : keeps_dirs (choice seq).
Proof. unfold choice. keeps. Qed.

Lemma keeps_uniform (a b : Q) : keeps_dirs (uniform a b).
Proof. unfold uniform. keeps. Qed.

Lemma keeps_shuffle {A} (x : list A) : keeps_dirs (shuffle x).
Proof.
  unfold shuffle. generalize (length x) as n. intros n. revert x.
  induction n as [|[|i] IH]; intros x; [apply keeps_ret..|].
  rewrite shuffle_from_step. keeps.
Qed.

#[export] Hint Resolve keeps_choice keeps_uniform keeps_shuffle : keeps.

(** A directory made first is there at the end. *)
Lemma after_mkdir {A} (p : string) (rest : M A) w :
  keeps_dirs rest →
  is_Some (fs ((safe_mkdir p ≫= λ _, rest) w).2 !! p).
Proof.
  intros Hrest. unfold safe_mkdir, get_fs, put_fs. unfold_M.
  destruct (fs w !! p) as [d|] eqn:Hd; cbn.
  - apply elem_of_dom, (Hrest w), elem_of_dom. by rewrite Hd.
  - apply elem_of_dom, Hrest, elem_of_dom. cbn. by rewrite lookup_insert_eq.
Qed.

Section Keeps.

Variable E : env.
Variable cfg : config.

Lemma keeps_download_image (url : value) (p : path) :
  keeps_dirs (download_image E cfg url p).
Proof. unfold download_image. keeps. Qed.

Lemma keeps_augment_image (img : image) : keeps_dirs (augment_image img).
Proof. unfold augment_image. keeps. Qed.

Lemma keeps_drain {A} (n : nat) (running : list A) :
  keeps_dirs (drain n running).
Proof.
  revert running. induction n as [|n IH]; intros running; cbn [drain]; keeps.
Qed.

Hint Resolve keeps_download_image keeps_augment_image keeps_drain : keeps.

Lemma keeps_as_completed {A} (max_workers : nat) (pending running : list A) :
  keeps_dirs (as_completed max_workers pending running).
Proof.
  revert running. induction pending as [|t pending IH]; intros running;
    cbn [as_completed]; keeps.
Qed.

Lemma keeps_results (futures : list task) : keeps_dirs (results E cfg futures).
Proof. induction futures as [|[url p] rest IH]; cbn [results]; keeps. Qed.

Hint Resolve keeps_as_completed keeps_results : keeps.

Lemma keeps_fetch_all (images_dir species_name : string) (urls : list value) :
  keeps_dirs (fetch_all E cfg images_dir species_name urls).
Proof. unfold fetch_all. keeps. Qed.

Lemma keeps_augment_loop (images_dir species_name : string)
    (existing_images : list path) (n img_index augment_count : nat) :
  keeps_dirs (augment_loop images_dir species_name existing_images
                           n img_index augment_count).
Proof.
  revert img_index augment_count.
  induction n as [|n IH]; intros img_index augment_count;
    cbn [augment_loop]; keeps.
Qed.

Hint Resolve keeps_fetch_all keeps_augment_loop : keeps.

Lemma keeps_candidate_urls (df : DataFrame) :
  keeps_dirs (candidate_urls cfg df).
Proof. unfold candidate_urls. keeps. Qed.

Lemma keeps_top_up (images_dir species_name : string) (downloaded_count : nat) :
  keeps_dirs (top_up cfg images_dir species_name downloaded_count).
Proof. unfold top_up. keeps. Qed.

Hint Resolve keeps_candidate_urls keeps_top_up : keeps.

Lemma process_species_dir (species_path : string) w :
  is_Some (fs (process_species E cfg species_path w).2
             !! Str.path_join species_path "images").
Proof.
  unfold process_species. apply after_mkdir. keeps.
Qed.

End Keeps.

(** * Properties of the pipeline *)

Section Claims.

Variable E : env.
Variable cfg : config.

Lemma merged_Val (species_path t : string) :
  Val t ∈ getitem (merged E species_path) "image_url" → t ∉ STR_NA_VALUES.
Proof.
  apply getitem_merged_Val.
Qed.

(** C4.  The candidate list of a category holds at most
    [MAX_IMAGES_PER_SPECIES] locations, no location twice, no missing
    value and no empty one; each is an [image_url] value of the merged
    metadata.  This holds for every category directory, whatever the
    random draws. *)
Theorem candidate_urls_bounded_distinct_present (species_path : string) w :
  ∃ urls w',
    candidate_urls cfg (merged E species_path) w = (Ret urls, w')
    ∧ (length urls ≤ MAX_IMAGES_PER_SPECIES cfg)%nat
    ∧ NoDup urls
    ∧ (NaN ∉ urls)
    ∧ (Val "" ∉ urls)
    ∧ ∀ v, v ∈ urls → v ∈ getitem (merged E species_path) "image_url".
Proof.
  destruct (candidate_urls_spec cfg (merged E species_path) w)
    as (urls & w' & Hrun & _ & Hlen & Hnd & Hin).
  exists urls, w'. split_and!; [done..| | |].
  - intros Hnan. by apply Hin in Hnan as [_ ?].
  - intros Hempty. apply Hin in Hempty as [Hempty _].
    apply merged_Val in Hempty. apply Hempty. by left.
  - intros v Hv. by apply Hin.
Qed.

(** C3.  With at least one worker, the batch reports as many successes
    as there are fetchable locations in it, whatever the number of
    workers and the order in which the downloads finish. *)
Theorem fetch_all_counts_fetchable (images_dir species_name : string)
    (urls : list value) w :
  (1 ≤ MAX_THREADS cfg)%nat →
  is_Some (fs w !! images_dir) →
  ∃ downloaded w',
    fetch_all E cfg images_dir species_name urls w = (Ret downloaded, w')
    ∧ length downloaded = length (List.filter (fetchable E cfg) urls).
Proof.
  intros Hthreads [d Hd].
  destruct (fetch_all_spec E cfg images_dir species_name urls d w Hthreads Hd)
    as (downloaded & order & w' & Hrun & Hlen & _).
  by exists downloaded, w'.
Qed.

Lemma saves_download_events (ts : list task) :
  saves (ts ≫= download_events E cfg)
  = omap (λ t : task, (λ img, (t.2, img)) <$> fetched_image E cfg t.1) ts.
Proof.
  induction ts as [|t ts IH]; [done|].
  rewrite bind_cons. unfold saves at 1. rewrite omap_app.
  fold (saves (ts ≫= download_events E cfg)).
  rewrite IH. unfold download_events. cbn.
  by destruct (fetched_image E cfg t.1).
Qed.

(** C7.  The file a candidate is downloaded to is named after its
    position in the candidate list.  Two runs of the batch that start
    from the same files make the same writes, one for each fetchable
    candidate at the path of its position, and end with the same files,
    however differently the downloads finish. *)
Theorem destination_fixed_by_position (images_dir species_name : string)
    (urls : list value) w1 w2 :
  (1 ≤ MAX_THREADS cfg)%nat →
  is_Some (fs w1 !! images_dir) →
  fs w1 = fs w2 →
  (∀ i url, urls !! i = Some url →
     submissions images_dir species_name 1 urls !! i
     = Some (url, (images_dir, img_name species_name (1 + i))))
  ∧ ∃ r1 w1' j1 r2 w2' j2,
      fetch_all E cfg images_dir species_name urls w1 = (Ret r1, w1')
      ∧ fetch_all E cfg images_dir species_name urls w2 = (Ret r2, w2')
      ∧ journal w1' = journal w1 ++ j1
      ∧ journal w2' = journal w2 ++ j2
      ∧ saves j1 ≡ₚ expected_writes E cfg images_dir species_name urls
      ∧ saves j2 ≡ₚ expected_writes E cfg images_dir species_name urls
      ∧ fs w1' = fs w2'.
Proof.
  intros Hthreads [d Hd1] Hfs. split.
  { intros i url Hi. by rewrite submissions_lookup, Hi. }
  assert (fs w2 !! images_dir = Some d) as Hd2 by by rewrite <- Hfs.
  destruct (fetch_all_spec E cfg images_dir species_name urls d w1 Hthreads Hd1)
    as (r1 & o1 & w1' & Hrun1 & _ & Ho1 & _ & _ & Hfs1 & Hj1).
  destruct (fetch_all_spec E cfg images_dir species_name urls d w2 Hthreads Hd2)
    as (r2 & o2 & w2' & Hrun2 & _ & Ho2 & _ & _ & Hfs2 & Hj2).
  exists r1, w1', (o1 ≫= download_events E cfg),
         r2, w2', (o2 ≫= download_events E cfg).
  split_and!; [done..| | |].
  - rewrite saves_download_events. unfold expected_writes. by rewrite Ho1.
  - rewrite saves_download_events. unfold expected_writes. by rewrite Ho2.
  - by rewrite Hfs1, Hfs2, Hfs.
Qed.

Lemma filter_nonempty {A} (f : A → bool) (l : list A) :
  (0 < length (List.filter f l))%nat → ∃ x, x ∈ l ∧ f x = true.
Proof.
  destruct (List.filter f l) as [|x l'] eqn:Hl; cbn; [lia|]. intros _.
  assert (In x (List.filter f l)) as Hin by (rewrite Hl; by left).
  apply filter_In in Hin as [Hin Hx]. exists x.
  by rewrite list_elem_of_In.
Qed.

(** C2.  When the batch has reported [D] successes with
    [0 < D < MAX_IMAGES_PER_SPECIES], the top-up returns normally with
    [MAX_IMAGES_PER_SPECIES - D] as its count, and the files it writes
    are, in order, those of the indices [D+1 .. MAX_IMAGES_PER_SPECIES]
    of the category: that many pairwise different files, each holding
    an augmented image, all present afterwards. *)
Theorem top_up_writes_the_missing_indices (images_dir species_name : string)
    (urls : list value) (downloaded : list nat) w w1 :
  is_Some (fs w !! images_dir) →
  fetch_all E cfg images_dir species_name urls w = (Ret downloaded, w1) →
  (0 < length downloaded < MAX_IMAGES_PER_SPECIES cfg)%nat →
  let D := length downloaded in
  let target_count := MAX_IMAGES_PER_SPECIES cfg in
  ∃ j w2 d2,
    top_up cfg images_dir species_name D w1 = (Ret (target_count - D), w2)
    ∧ journal w2 = journal w1 ++ j
    ∧ (saves j).*1
      = (λ i, (images_dir, img_name species_name i))
          <$> seq (D + 1) (target_count - D)
    ∧ length (saves j) = (target_count - D)%nat
    ∧ NoDup (saves j).*1
    ∧ Forall (λ s : path * image, augmented s.2) (saves j)
    ∧ fs w2 !! images_dir = Some d2
    ∧ ∀ i, (D < i ≤ target_count)%nat →
           is_Some (d2 !! img_name species_name i).
Proof.
  intros [d Hd] Hrun [Hpos Hlt] D target_count.
  assert (1 ≤ MAX_THREADS cfg)%nat as Hthreads.
  { unfold fetch_all in Hrun.
    destruct (Nat.eqb_spec (MAX_THREADS cfg) 0); [|lia].
    unfold raise in Hrun. congruence. }
  destruct (fetch_all_spec E cfg images_dir species_name urls d w Hthreads Hd)
    as (r & order & w' & Hrun' & Hlen & _ & _ & _ & Hfs & _).
  rewrite Hrun in Hrun'. injection Hrun' as <- <-.
  rewrite Hlen in Hpos.
  apply filter_nonempty in Hpos as (url & Hurl & Hfetch).
  apply list_elem_of_lookup in Hurl as [i Hi].
  pose proof (submissions_lookup images_dir species_name 1 i urls) as Hsub.
  rewrite Hi in Hsub. cbn in Hsub.
  apply list_elem_of_lookup_2 in Hsub.
  apply (foldl_store_stored E cfg d) in Hsub; [|done]. cbn in Hsub.
  destruct (top_up_spec cfg images_dir species_name
              (img_name species_name (S i)) D
              (foldl (store E cfg) d
                     (submissions images_dir species_name 1 urls)) w1)
    as (j & d' & w2 & Htop & _ & _ & Hfs2 & Hj & Hsaves & Haug & _ & _ & Hdom);
    [done|by rewrite Hfs, lookup_insert_eq|done|apply img_name_jpg|].
  exists j, w2, d'. split_and!; [done..| | |done| |].
  - rewrite <- (length_fmap fst), Hsaves, length_fmap. apply length_seq.
  - rewrite Hsaves. apply NoDup_fmap_2; [|apply NoDup_seq].
    intros a b Heq%(f_equal snd). exact (img_name_inj _ _ _ Heq).
  - by rewrite Hfs2, lookup_insert_eq.
  - intros k Hk. apply elem_of_dom. rewrite Hdom.
    apply elem_of_union_r, elem_of_list_to_set, list_elem_of_fmap.
    exists k. split; [done|]. apply elem_of_seq.
    unfold D, target_count in *. lia.
Qed.

End Claims.

Section Skips.

Variable E : env.
Variable cfg : config.

(** The world a skipped category leaves. *)
Lemma process_species_skip (species_path : string) w :
  lacks_metadata E species_path →
  let species_name := Str.basename species_path in
  let images_dir := Str.path_join species_path "images" in
  ∃ warning,
    (warning = msg_no_csv species_name
     ∨ warning = msg_column_missing species_name)
    ∧ process_species E cfg species_path w
      = (Ret (),
         {| rng := rng w; completions := completions w;
            stdout := stdout w ++ [msg_processing species_name; warning];
            fs := match fs w !! images_dir with
                  | Some _ => fs w
                  | None => <[images_dir := ∅]> (fs w)
                  end;
            journal := journal w |}).
Proof.
  intros Hlacks species_name images_dir.
  unfold process_species, safe_mkdir, get_fs, put_fs, log. unfold_M.
  fold species_name images_dir.
  destruct (csv_files E species_path) as [|f files] eqn:Hfiles.
  - exists (msg_no_csv species_name). split; [by left|].
    destruct (fs w !! images_dir); cbn; by rewrite <- app_assoc.
  - destruct Hlacks as [|Hcol]; [congruence|].
    exists (msg_column_missing species_name). split; [by right|].
    rewrite bool_decide_eq_false_2 by done.
    destruct (fs w !! images_dir); cbn; by rewrite <- app_assoc.
Qed.

(** C6.  A category without CSV files, or whose CSV files all parse and
    merge into a table without [image_url] column, returns normally
    after one warning; it requests, reads and writes nothing, its image
    directory holds what it held before (nothing if it is new), no other
    directory changes, and the loop over the categories goes on with the
    next one.  (A CSV file that [pd.read_csv] rejects makes the script
    raise before the column is looked for, whence the hypothesis
    [metadata_parses].) *)
Theorem missing_metadata_skips_category (species_path : string)
    (rest : list string) w :
  lacks_metadata E species_path →
  metadata_parses E species_path →
  let species_name := Str.basename species_path in
  let images_dir := Str.path_join species_path "images" in
  ∃ warning w',
    process_species E cfg species_path w = (Ret (), w')
    ∧ (warning = msg_no_csv species_name
       ∨ warning = msg_column_missing species_name)
    ∧ stdout w' = stdout w ++ [msg_processing species_name; warning]
    ∧ journal w' = journal w
    ∧ fs w' !! images_dir = Some (default ∅ (fs w !! images_dir))
    ∧ (∀ p, p ≠ images_dir → fs w' !! p = fs w !! p)
    ∧ for_each E cfg (species_path :: rest) w = for_each E cfg rest w'.
Proof.
  intros Hlacks _ species_name images_dir.
  destruct (process_species_skip species_path w Hlacks)
    as (warning & Hwarning & Hrun).
  eexists warning, _. split_and!; [exact Hrun|done..| | |].
  - cbn. fold images_dir. destruct (fs w !! images_dir) eqn:Hd; cbn;
      [done|by rewrite lookup_insert_eq].
  - intros p Hp. cbn. fold images_dir.
    destruct (fs w !! images_dir); [done|by rewrite lookup_insert_ne].
  - cbn [for_each]. unfold_M. by rewrite Hrun.
Qed.

(** C10.  The image directory of a category exists when
    [process_species] is over, whatever the metadata and however the
    call ends; for a category that is skipped it holds what it held
    before, so a directory that did not exist is there and empty. *)
Theorem images_dir_made_before_metadata_check (species_path : string) w :
  let images_dir := Str.path_join species_path "images" in
  let w' := (process_species E cfg species_path w).2 in
  is_Some (fs w' !! images_dir)
  ∧ (lacks_metadata E species_path →
     fs w' !! images_dir = Some (default ∅ (fs w !! images_dir))
     ∧ (fs w !! images_dir = None → fs w' !! images_dir = Some ∅)).
Proof.
  intros images_dir w'. split; [apply process_species_dir|].
  intros Hlacks. unfold w'.
  destruct (process_species_skip species_path w Hlacks)
    as (warning & _ & ->). cbn. fold images_dir.
  destruct (fs w !! images_dir) eqn:Hd; cbn.
  - by rewrite Hd.
  - by rewrite lookup_insert_eq.
Qed.

(** C8.  With a target of zero, a category requests no location, reads
    and writes no image; its image directory holds what it held before
    (nothing if it is new) and no other directory changes. *)
Theorem zero_target_fetches_and_writes_nothing (species_path : string) w :
  MAX_IMAGES_PER_SPECIES cfg = 0%nat →
  let images_dir := Str.path_join species_path "images" in
  let w' := (process_species E cfg species_path w).2 in
  journal w' = journal w
  ∧ fs w' !! images_dir = Some (default ∅ (fs w !! images_dir))
  ∧ (∀ p, p ≠ images_dir → fs w' !! p = fs w !! p).
Proof.
  intros Hzero images_dir w'.
  assert (journal w' = journal w
          ∧ fs w' = match fs w !! images_dir with
                    | Some _ => fs w
                    | None => <[images_dir := ∅]> (fs w)
                    end) as [Hj Hfs].
  { unfold w'.
    destruct (decide (lacks_metadata E species_path)) as [Hlacks|Hhas].
    { by destruct (process_species_skip species_path w Hlacks)
        as (warning & _ & ->). }
    unfold process_species, safe_mkdir, get_fs, put_fs, log. unfold_M.
    fold images_dir.
    destruct (csv_files E species_path) as [|f files] eqn:Hfiles.
    { destruct Hhas. by left. }
    rewrite bool_decide_eq_true_2; cycle 1.
    { destruct (decide ("image_url" ∈ columns (merged E species_path)));
        [done|]. destruct Hhas. by right. }
    cbn [negb].
    destruct (fs w !! images_dir); cbn -[candidate_urls].
    all: match goal with |- context [candidate_urls cfg ?df ?w0] =>
      destruct (candidate_urls_spec cfg df w0)
        as (urls & w1 & -> & (Hc1 & Ho1 & Hf1 & Hj1) & Hlen & _)
    end.
    all: rewrite Hzero in Hlen.
    all: destruct urls as [|url urls]; [|cbn in Hlen; lia].
    all: unfold fetch_all, top_up; rewrite Hzero.
    all: destruct (MAX_THREADS cfg =? 0)%nat; cbn.
    all: by cbn in Hj1, Hf1. }
  split_and!; [done| |].
  - rewrite Hfs. destruct (fs w !! images_dir) eqn:Hd; cbn;
      [done|by rewrite lookup_insert_eq].
  - intros p Hp. rewrite Hfs.
    destruct (fs w !! images_dir); [done|by rewrite lookup_insert_ne].
Qed.

End Skips.

(** * Runs of the script on sample inputs *)

Import Sample.

(** The scenario of the specification: the rows A, B, empty, A give the
    candidates A and B. *)
Example aphid_candidates :
  unique (dropna (getitem (merged only_A "/r/Aphid") "image_url"))
  = [Val "A"; Val "B"].
Proof. reflexivity. Qed.

(** With a target of two, A fetched into position 1 and B failing, the
    category ends with the download at index 1 and one augmented copy of
    it at index 2. *)
Example aphid_topped_up :
  let r := process_species only_A (small 2) "/r/Aphid" (fresh [1%N] []) in
  r.1 = Ret ()
  ∧ (saves (journal r.2)).*1
    = [ ("/r/Aphid/images", "BugLiteAI_Aphid_Img0001.jpg");
        ("/r/Aphid/images", "BugLiteAI_Aphid_Img0002.jpg") ]
  ∧ opens (journal r.2)
    = [ (("/r/Aphid/images", "BugLiteAI_Aphid_Img0001.jpg"),
         resize (512, 512) (convert "RGB" (Image_open "a"))) ]
  ∧ last (stdout r.2) = Some (msg_summary "Aphid" 1 1 2).
Proof. split_and!; vm_compute; reflexivity. Qed.

(** C1.  With the constants of the script, A in first position failing
    and B in second position fetched, one download is counted and the
    top-up starts at index 2: it overwrites the downloaded file and
    stops at 1000.  The category ends with 999 files and none of index
    1, while the summary line announces a total of 1000. *)
Theorem failed_download_leaves_a_gap :
  let r := process_species only_B CONFIG "/r/Aphid" (fresh [1%N] []) in
  r.1 = Ret ()
  ∧ size <$> fs r.2 !! "/r/Aphid/images" = Some 999%nat
  ∧ fs r.2 !! "/r/Aphid/images" ≫= (.!! img_name "Aphid" 1) = None
  ∧ last (stdout r.2) = Some (msg_summary "Aphid" 1 999 1000).
Proof. split_and!; vm_compute; reflexivity. Qed.

(** C5.  With every request timing out, the first category raises
    [IndexError] out of [main]: the run stops there, the remaining
    categories Bee and Wasp are never processed. *)
Theorem starved_category_stops_the_run :
  let r := main all_time_out CONFIG (fresh [] []) in
  r.1 = Raise IndexError
  ∧ stdout r.2
    = [msg_starting; msg_processing "Aphid"; msg_downloading 2 "Aphid";
       msg_downloaded 0 "Aphid"; msg_augmenting "Aphid"]
  ∧ fs r.2 !! "/r/Bee/images" = None
  ∧ fs r.2 !! "/r/Wasp/images" = None.
Proof. split_and!; vm_compute; reflexivity. Qed.

(** C9.  In the run of [failed_download_leaves_a_gap] the file of index
    2 is in the pool listed before the loop.  The first iteration overwrites it with an
    augmented image, and the second iteration opens that augmented
    image as its source. *)
Theorem augmented_file_sampled_again :
  let r := process_species only_B CONFIG "/r/Aphid" (fresh [1%N] []) in
  let p := ("/r/Aphid/images", img_name "Aphid" 2) in
  ∃ b a,
    journal r.2 !! 2%nat = Some (ev_save p b)
    ∧ journal r.2 !! 3%nat = Some (ev_open p b)
    ∧ journal r.2 !! 4%nat = Some (ev_save p a)
    ∧ journal r.2 !! 5%nat = Some (ev_open p a)
    ∧ b = resize (512, 512) (convert "RGB" (Image_open "b"))
    ∧ augmented a.
Proof.
  eexists _, _. split_and!; [vm_compute; reflexivity..|].
  by eexists _, _, _, _.
Qed.

(** * The properties at sample inputs *)

(** [fetch_all_counts_fetchable] at a batch of two with one fetchable
    location and the second download finishing first. *)
Lemma fetch_all_counts_fetchable_witness :
  ∃ downloaded w',
    fetch_all only_B (small 3) "/r/Aphid/images" "Aphid"
              [Val "A"; Val "B"] (made [] [1%nat])
    = (Ret downloaded, w')
    ∧ length downloaded = 1%nat.
Proof.
  apply (fetch_all_counts_fetchable only_B (small 3)).
  - simpl. lia.
  - eexists. vm_compute. reflexivity.
Defined.

(** [destination_fixed_by_position] at the same batch, finishing in the
    two possible orders. *)
Lemma destination_fixed_by_position_witness :
  fs (fetch_all only_B (small 3) "/r/Aphid/images" "Aphid"
                [Val "A"; Val "B"] (made [] [])).2
  = fs (fetch_all only_B (small 3) "/r/Aphid/images" "Aphid"
                  [Val "A"; Val "B"] (made [] [1%nat])).2.
Proof.
  destruct (destination_fixed_by_position only_B (small 3)
              "/r/Aphid/images" "Aphid" [Val "A"; Val "B"]
              (made [] []) (made [] [1%nat]))
    as [_ (r1 & w1' & j1 & r2 & w2' & j2 & -> & -> & _ & _ & _ & _ & Hfs)].
  - simpl. lia.
  - eexists. vm_compute. reflexivity.
  - reflexivity.
  - exact Hfs.
Defined.

(** [top_up_writes_the_missing_indices] at a target of three after one
    success: indices 2 and 3. *)
Lemma top_up_writes_the_missing_indices_witness :
  ∃ j w2,
    top_up (small 3) "/r/Aphid/images" "Aphid" 1
      (fetch_all only_B (small 3) "/r/Aphid/images" "Aphid"
                 [Val "A"; Val "B"] (made [] [])).2
    = (Ret 2%nat, w2)
    ∧ (saves j).*1
      = [("/r/Aphid/images", "BugLiteAI_Aphid_Img0002.jpg");
         ("/r/Aphid/images", "BugLiteAI_Aphid_Img0003.jpg")].
Proof.
  destruct (top_up_writes_the_missing_indices only_B (small 3)
              "/r/Aphid/images" "Aphid" [Val "A"; Val "B"] [2%nat]
              (made [] [])
              (fetch_all only_B (small 3) "/r/Aphid/images" "Aphid"
                 [Val "A"; Val "B"] (made [] [])).2)
    as (j & w2 & d2 & Htop & _ & Hsaves & _).
  - eexists. vm_compute. reflexivity.
  - vm_compute. reflexivity.
  - simpl. lia.
  - exists j, w2. split; [exact Htop|exact Hsaves].
Defined.

(** [missing_metadata_skips_category] at a category whose one CSV file
    parses and has no [image_url] column. *)
Lemma missing_metadata_skips_category_witness :
  ∃ warning w',
    process_species only_A CONFIG "/r/Wasp" (fresh [] []) = (Ret (), w')
    ∧ stdout w' = [msg_processing "Wasp"; warning]
    ∧ journal w' = []
    ∧ for_each only_A CONFIG ["/r/Wasp"; "/r/Bee"] (fresh [] [])
      = for_each only_A CONFIG ["/r/Bee"] w'.
Proof.
  destruct (missing_metadata_skips_category only_A CONFIG "/r/Wasp"
              ["/r/Bee"] (fresh [] []))
    as (warning & w' & Hrun & _ & Hout & Hj & _ & _ & Hnext).
  - right. refine (bool_decide_unpack _ _). vm_compute. exact I.
  - refine (bool_decide_unpack _ _). vm_compute. exact I.
  - exists warning, w'. split_and!; [exact Hrun|exact Hout|exact Hj|exact Hnext].
Defined.

(** [images_dir_made_before_metadata_check] at a category whose table
    has no [image_url] column. *)
Lemma images_dir_made_before_metadata_check_witness :
  fs (process_species only_A CONFIG "/r/Wasp" (fresh [] [])).2
    !! "/r/Wasp/images" = Some ∅.
Proof.
  destruct (images_dir_made_before_metadata_check only_A CONFIG "/r/Wasp"
              (fresh [] [])) as [_ Hskip].
  destruct Hskip as [_ Hnew].
  - right. refine (bool_decide_unpack _ _). vm_compute. exact I.
  - apply Hnew. reflexivity.
Defined.

(** [zero_target_fetches_and_writes_nothing] at the category Aphid. *)
Lemma zero_target_fetches_and_writes_nothing_witness :
  journal (process_species only_A (small 0) "/r/Aphid" (fresh [] [])).2 = []
  ∧ fs (process_species only_A (small 0) "/r/Aphid" (fresh [] [])).2
      !! "/r/Aphid/images" = Some ∅.
Proof.
  destruct (zero_target_fetches_and_writes_nothing only_A (small 0)
              "/r/Aphid" (fresh [] [])) as (Hj & Hdir & _).
  - reflexivity.
  - split; [exact Hj|exact Hdir].
Defined.

(** * Further properties of the script *)

(** ** The helpers: [download_image], [augment_image] *)

Section DownloadFacts.

Variable E : env.
Variable cfg : config.

Lemma download_image_cases (url : value) (save_path : path) w :
  ∃ ok j w',
    download_image E cfg url save_path w = (Ret ok, w')
    ∧ ok = fetchable E cfg url && bool_decide (is_Some (fs w !! save_path.1))
    ∧ rng w' = rng w ∧ completions w' = completions w
    ∧ stdout w' = stdout w
    ∧ journal w' = journal w ++ j
    ∧ requests j = [url] ∧ opens j = []
    ∧ if ok then
        ∃ d data,
          fs w !! save_path.1 = Some d
          ∧ saves j
            = [(save_path,
                resize (IMAGE_SIZE cfg) (convert "RGB" (Image_open data)))]
          ∧ fs w'
            = <[save_path.1 :=
                  <[save_path.2 :=
                      resize (IMAGE_SIZE cfg)
                             (convert "RGB" (Image_open data))]> d]> (fs w)
      else saves j = [] ∧ fs w' = fs w.
Proof.
  unfold download_image, fetchable, save, record, get_fs, put_fs. unfold_M.
  cbn. destruct url as [|u]; cbn.
  { eexists false, [ev_request NaN], _. by split_and!. }
  destruct (http E u (TIMEOUT cfg)) as [|code [data|]]; cbn.
  - eexists false, [ev_request (Val u)], _. by split_and!.
  - destruct (error_status code); cbn.
    { eexists false, [ev_request (Val u)], _. by split_and!. }
    destruct (fs w !! save_path.1) as [d|] eqn:Hd; cbn.
    + eexists true, [ev_request (Val u); ev_save save_path _], _.
      split_and!; try done.
      * cbn. by rewrite <- app_assoc.
      * by exists d, data.
    + eexists false, [ev_request (Val u)], _. by split_and!.
  - destruct (error_status code); cbn;
      eexists false, [ev_request (Val u)], _; by split_and!.
Qed.

(** X1.  [download_image] never raises.  It issues one request; it
    answers [True] exactly when the location is fetchable and the
    directory of [save_path] exists, and then it has written the image,
    converted to RGB and resized to [IMAGE_SIZE], at [save_path] and
    changed no other file; when it answers [False] it has written
    nothing. *)
Theorem download_image_never_raises (url : value) (save_path : path) w :
  ∃ ok j w',
    download_image E cfg url save_path w = (Ret ok, w')
    ∧ ok = fetchable E cfg url && bool_decide (is_Some (fs w !! save_path.1))
    ∧ rng w' = rng w ∧ completions w' = completions w
    ∧ stdout w' = stdout w
    ∧ journal w' = journal w ++ j
    ∧ requests j = [url] ∧ opens j = []
    ∧ if ok then
        ∃ d data,
          fs w !! save_path.1 = Some d
          ∧ saves j
            = [(save_path,
                resize (IMAGE_SIZE cfg) (convert "RGB" (Image_open data)))]
          ∧ fs w'
            = <[save_path.1 :=
                  <[save_path.2 :=
                      resize (IMAGE_SIZE cfg)
                             (convert "RGB" (Image_open data))]> d]> (fs w)
      else saves j = [] ∧ fs w' = fs w.
Proof. apply download_image_cases. Qed.

End DownloadFacts.

(** ** The random generator *)

Lemma draw_eq w :
  draw w
  = (Ret (hd 0%N (rng w)),
     {| rng := drop 1 (rng w); completions := completions w;
        stdout := stdout w; fs := fs w; journal := journal w |}).
Proof. unfold draw. destruct w as [[|k r] ? ? ? ?]; reflexivity. Qed.

Lemma uniform_range (u : N) :
  (u < 2 ^ 53)%N →
  (0.7 <= 0.7 + (1.3 - 0.7) * (Z.of_N u # 2 ^ 53) <= 1.3)%Q.
Proof.
  intros Hu. apply N2Z.inj_lt in Hu.
  change (Z.of_N (2 ^ 53)) with 9007199254740992%Z in Hu.
  pose proof (N2Z.is_nonneg u).
  unfold Qle, Qplus, Qminus, Qmult, Qopp; cbn.
  change (Z.pos (2 ^ 53)) with 9007199254740992%Z.
  split; lia.
Qed.

Lemma augment_image_eq (img : image) w :
  ∃ (flip : bool) angle f1 f2,
    augment_image img w
    = (Ret (Brightness_enhance f2
              (Color_enhance f1
                 (rotate angle
                    (if flip then transpose_FLIP_LEFT_RIGHT img else img)))),
       {| rng := drop 4 (rng w); completions := completions w;
          stdout := stdout w; fs := fs w; journal := journal w |})
    ∧ angle ∈ [0; 90; 180; 270]%nat
    ∧ (0.7 <= f1 <= 1.3)%Q
    ∧ (0.7 <= f2 <= 1.3)%Q.
Proof.
  unfold augment_image, uniform, random_random, choice, randbelow. unfold_M.
  rewrite !draw_eq. cbn [rng completions stdout fs journal].
  rewrite !drop_drop. cbn [Nat.add].
  eexists (hd 0 (rng w) mod 2 ^ 53 <? 2 ^ 52)%N, _, _, _.
  split; [|split; [|split]].
  - destruct (_ <? _)%N; reflexivity.
  - apply list_elem_of_In, nth_In. cbn [length].
    apply Nat.mod_upper_bound. lia.
  - apply uniform_range, N.mod_upper_bound. lia.
  - apply uniform_range, N.mod_upper_bound. lia.
Qed.

(** X2.  An image that [augment_image] returns is the source image,
    mirrored or not, rotated by 0, 90, 180 or 270 degrees, then with
    colour and brightness scaled by factors between 0.7 and 1.3; the
    call has taken four draws from the random generator and touched
    nothing else. *)
Theorem augment_image_shape (img result : image) w w' :
  augment_image img w = (Ret result, w') →
  ∃ (flip : bool) angle f1 f2,
    result
    = Brightness_enhance f2
        (Color_enhance f1
           (rotate angle
              (if flip then transpose_FLIP_LEFT_RIGHT img else img)))
    ∧ angle ∈ [0; 90; 180; 270]%nat
    ∧ (0.7 <= f1 <= 1.3)%Q
    ∧ (0.7 <= f2 <= 1.3)%Q
    ∧ rng w' = drop 4 (rng w)
    ∧ completions w' = completions w ∧ stdout w' = stdout w
    ∧ fs w' = fs w ∧ journal w' = journal w.
Proof.
  intros Hrun.
  destruct (augment_image_eq img w)
    as (flip & angle & f1 & f2 & Heq & Hangle & Hf1 & Hf2).
  rewrite Heq in Hrun. injection Hrun as <- <-.
  exists flip, angle, f1, f2.
  split; [reflexivity|]. split; [exact Hangle|]. split; [exact Hf1|].
  split; [exact Hf2|]. cbn. by split_and!.
Qed.

(** X4.  The file names of any range of indices of a category are
    pairwise different, also beyond 9999 where the index takes more than
    four digits, and each ends in [.jpg]. *)
Theorem img_name_one_file_per_index (species_name : string) (start n : nat) :
  NoDup (img_name species_name <$> seq start n)
  ∧ Forall (λ f, Str.endswith f ".jpg" = true)
           (img_name species_name <$> seq start n).
Proof.
  split.
  - apply NoDup_fmap_2; [|apply NoDup_seq].
    intros a b. apply img_name_inj.
  - rewrite Forall_fmap. apply Forall_forall. intros i _.
    apply img_name_jpg.
Qed.

(** ** The batch of downloads *)

Lemma requests_app (j1 j2 : list event) :
  requests (j1 ++ j2) = requests j1 ++ requests j2.
Proof. unfold requests. apply omap_app. Qed.

Lemma opens_app (j1 j2 : list event) :
  opens (j1 ++ j2) = opens j1 ++ opens j2.
Proof. unfold opens. apply omap_app. Qed.

Lemma saves_app (j1 j2 : list event) :
  saves (j1 ++ j2) = saves j1 ++ saves j2.
Proof. unfold saves. apply omap_app. Qed.

Lemma length_true_positions_le (start : nat) (rs : list bool) :
  length (true_positions start rs) ≤ length rs.
Proof.
  revert start. induction rs as [|[|] rs IH]; intros start; cbn; [lia| |].
  - specialize (IH (S start)). lia.
  - specialize (IH (S start)). lia.
Qed.

Section FetchFacts.

Variable E : env.
Variable cfg : config.

(** The downloads of a list of tasks, whether their directories exist
    or not. *)
Lemma results_total (ts : list task) w :
  ∃ rs j w',
    results E cfg ts w = (Ret rs, w')
    ∧ length rs = length ts
    ∧ rng w' = rng w ∧ completions w' = completions w
    ∧ stdout w' = stdout w
    ∧ journal w' = journal w ++ j
    ∧ requests j = ts.*1 ∧ opens j = [].
Proof.
  revert w. induction ts as [|[url p] ts IH]; intros w.
  - exists [], [], w. cbn. rewrite app_nil_r. by split_and!.
  - cbn [results]. unfold_M.
    destruct (download_image_cases E cfg url p w)
      as (ok & j1 & w1 & -> & _ & Hr1 & Hc1 & Ho1 & Hj1 & Hreq1 & Hop1 & _).
    destruct (IH w1)
      as (rs & j2 & w2 & -> & Hlen & Hr2 & Hc2 & Ho2 & Hj2 & Hreq2 & Hop2).
    exists (ok :: rs), (j1 ++ j2), w2. split_and!; try congruence.
    + cbn. by rewrite Hlen.
    + by rewrite Hj2, Hj1, <- app_assoc.
    + by rewrite requests_app, Hreq1, Hreq2.
    + by rewrite opens_app, Hop1, Hop2.
Qed.

Lemma fetch_all_total (images_dir species_name : string) (urls : list value) w :
  (1 ≤ MAX_THREADS cfg)%nat →
  ∃ downloaded j w',
    fetch_all E cfg images_dir species_name urls w = (Ret downloaded, w')
    ∧ length downloaded ≤ length urls
    ∧ rng w' = rng w ∧ stdout w' = stdout w
    ∧ journal w' = journal w ++ j
    ∧ requests j ≡ₚ urls ∧ opens j = [].
Proof.
  intros Hthreads. unfold fetch_all.
  destruct (Nat.eqb_spec (MAX_THREADS cfg) 0) as [?|_]; [lia|].
  unfold_M.
  destruct (as_completed_spec (MAX_THREADS cfg)
              (submissions images_dir species_name 1 urls) [] w)
    as (order & w1 & -> & (Hrng & Hout & Hfs & Hj) & Horder).
  cbn in Horder.
  destruct (results_total order w1)
    as (rs & j & w2 & -> & Hlen & Hr2 & _ & Ho2 & Hj2 & Hreq & Hop).
  exists (true_positions 1 rs), j, w2. split_and!; try congruence.
  - pose proof (length_true_positions_le 1 rs) as Hle.
    pose proof (Permutation_length Horder) as Hperm.
    pose proof (f_equal length
                  (submissions_urls images_dir species_name 1 urls)) as Hsub.
    rewrite length_fmap in Hsub. unfold task in *.
    lia.
  - by rewrite Hreq, Horder, submissions_urls.
Qed.

(** X5.  With at least one worker, the batch never raises and requests
    every candidate exactly once, whatever fails and in whatever order
    the downloads finish: no failure stops it short.  It opens no stored
    image, and it reports at most as many successes as there are
    candidates. *)
Theorem fetch_all_requests_every_candidate (images_dir species_name : string)
    (urls : list value) w :
  (1 ≤ MAX_THREADS cfg)%nat →
  ∃ downloaded j w',
    fetch_all E cfg images_dir species_name urls w = (Ret downloaded, w')
    ∧ journal w' = journal w ++ j
    ∧ requests j ≡ₚ urls
    ∧ opens j = []
    ∧ length downloaded ≤ length urls.
Proof.
  intros Hthreads.
  destruct (fetch_all_total images_dir species_name urls w Hthreads)
    as (downloaded & j & w' & Hrun & Hlen & _ & _ & Hj & Hreq & Hop).
  by exists downloaded, j, w'.
Qed.

(** X6.  The number of downloads reported for the candidates of a
    category never exceeds [MAX_IMAGES_PER_SPECIES]: the list is cut
    before the batch starts. *)
Theorem downloaded_count_at_most_target (images_dir species_name : string)
    (df : DataFrame) (urls : list value) (downloaded : list nat)
    w w1 w2 w3 :
  candidate_urls cfg df w = (Ret urls, w1) →
  fetch_all E cfg images_dir species_name urls w2 = (Ret downloaded, w3) →
  length downloaded ≤ MAX_IMAGES_PER_SPECIES cfg.
Proof.
  intros Hurls Hrun.
  destruct (candidate_urls_spec cfg df w)
    as (urls' & w1' & Hurls' & _ & Hlen & _).
  rewrite Hurls in Hurls'. injection Hurls' as <- <-.
  assert (1 ≤ MAX_THREADS cfg)%nat as Hthreads.
  { unfold fetch_all in Hrun.
    destruct (Nat.eqb_spec (MAX_THREADS cfg) 0); [|lia].
    unfold raise in Hrun. congruence. }
  destruct (fetch_all_total images_dir species_name urls w2 Hthreads)
    as (downloaded' & j & w' & Hrun' & Hle & _).
  rewrite Hrun in Hrun'. injection Hrun' as <- <-. lia.
Qed.

End FetchFacts.

(** [fetch_all_requests_every_candidate] at a batch of two where the
    first request fails. *)
Lemma fetch_all_requests_every_candidate_witness :
  ∃ j,
    journal (fetch_all only_B (small 3) "/r/Aphid/images" "Aphid"
                       [Val "A"; Val "B"] (made [] [1%nat])).2 = j
    ∧ requests j ≡ₚ [Val "A"; Val "B"].
Proof.
  destruct (fetch_all_requests_every_candidate only_B (small 3)
              "/r/Aphid/images" "Aphid" [Val "A"; Val "B"] (made [] [1%nat]))
    as (downloaded & j & w' & Hrun & Hj & Hreq & _).
  - simpl. lia.
  - exists j. rewrite Hrun. split; [exact Hj|exact Hreq].
Defined.

(** [downloaded_count_at_most_target] at the two candidates of Aphid
    and a target of one. *)
Lemma downloaded_count_at_most_target_witness :
  length [1%nat] ≤ MAX_IMAGES_PER_SPECIES (small 1).
Proof.
  apply (downloaded_count_at_most_target only_B (small 1)
           "/r/Aphid/images" "Aphid" (merged only_B "/r/Aphid")
           [Val "B"] [1%nat] (fresh [] [])
           (candidate_urls (small 1) (merged only_B "/r/Aphid")
                           (fresh [] [])).2
           (made [] [])
           (fetch_all only_B (small 1) "/r/Aphid/images" "Aphid"
                      [Val "B"] (made [] [])).2).
  - vm_compute. reflexivity.
  - vm_compute. reflexivity.
Defined.

(** ** Candidates and top-up *)

Lemma candidate_urls_keeps_all_up_to_target_aux (cfg : config)
    (df : DataFrame) w :
  let all := unique (dropna (getitem df "image_url")) in
  ∃ urls w',
    candidate_urls cfg df w = (Ret urls, w')
    ∧ urls ⊆+ all
    ∧ length urls = MAX_IMAGES_PER_SPECIES cfg `min` length all
    ∧ completions w' = completions w ∧ stdout w' = stdout w
    ∧ fs w' = fs w ∧ journal w' = journal w.
Proof.
  intros all. unfold candidate_urls. unfold_M. fold all.
  destruct (shuffle_spec all w) as (y & w' & -> & (Hc & Ho & Hf & Hj) & Hy).
  eexists _, _. split_and!; [done| | |done..].
  - rewrite <- Hy. apply sublist_submseteq, sublist_take.
  - by rewrite length_take, Hy.
Qed.

(** X7.  The candidate list touches nothing but the random generator.
    It is a selection of the distinct non-missing [image_url] values,
    [MAX_IMAGES_PER_SPECIES] of them or all if there are fewer: no
    location is left out unless the target is exceeded. *)
Theorem candidate_urls_keeps_all_up_to_target (cfg : config)
    (df : DataFrame) w :
  let all := unique (dropna (getitem df "image_url")) in
  ∃ urls w',
    candidate_urls cfg df w = (Ret urls, w')
    ∧ urls ⊆+ all
    ∧ length urls = MAX_IMAGES_PER_SPECIES cfg `min` length all
    ∧ completions w' = completions w ∧ stdout w' = stdout w
    ∧ fs w' = fs w ∧ journal w' = journal w.
Proof. apply candidate_urls_keeps_all_up_to_target_aux. Qed.

Section TopUpFacts.

Variable cfg : config.

Lemma jpg_names_elem (d : directory) (f : string) :
  f ∈ jpg_names d ↔ is_Some (d !! f) ∧ Str.endswith f ".jpg" = true.
Proof.
  unfold jpg_names.
  by rewrite list_elem_of_In, filter_In, <- list_elem_of_In, elem_of_listing.
Qed.

(** The top-up in a directory that exists: it fails exactly when it is
    starved, and then it has logged its start and done nothing else. *)
Lemma top_up_cases (images_dir species_name : string) (downloaded_count : nat)
    (d : directory) w :
  fs w !! images_dir = Some d →
  ∃ w',
    top_up cfg images_dir species_name downloaded_count w
    = (if starved cfg d downloaded_count then Raise IndexError
       else Ret (MAX_IMAGES_PER_SPECIES cfg - downloaded_count), w')
    ∧ if starved cfg d downloaded_count
      then w' = {| rng := rng w; completions := completions w;
                   stdout := stdout w ++ [msg_augmenting species_name];
                   fs := fs w; journal := journal w |}
      else is_Some (fs w' !! images_dir)
           ∧ ∃ j, journal w' = journal w ++ j ∧ requests j = [].
Proof.
  intros Hd. unfold starved.
  destruct (Nat.ltb_spec downloaded_count (MAX_IMAGES_PER_SPECIES cfg))
    as [Hlt|Hge]; cbn [andb].
  - case_bool_decide as Hpool.
    + unfold top_up. apply Nat.ltb_lt in Hlt as Hltb. rewrite Hltb.
      unfold log, listdir, get_fs. unfold_M. cbn. rewrite Hd.
      fold (jpg_names d). rewrite Hpool. cbn.
      replace (MAX_IMAGES_PER_SPECIES cfg - downloaded_count)
        with (S (MAX_IMAGES_PER_SPECIES cfg - downloaded_count - 1)) by lia.
      cbn. by eexists.
    + destruct (jpg_names d) as [|f names] eqn:Hnames; [done|].
      assert (f ∈ jpg_names d) as [Hf Hjpg]%jpg_names_elem
        by (rewrite Hnames; left).
      destruct (top_up_spec cfg images_dir species_name f downloaded_count
                  d w Hlt Hd Hf Hjpg)
        as (j & d' & w' & -> & _ & _ & Hfs & Hj & _ & _ & Hreq & _).
      exists w'. split; [done|]. rewrite Hfs, lookup_insert_eq.
      split; [by eexists|]. by exists j.
  - unfold top_up. apply Nat.ltb_ge in Hge as Hgeb. rewrite Hgeb.
    exists w. replace (MAX_IMAGES_PER_SPECIES cfg - downloaded_count) with 0
      by lia.
    split; [done|]. split; [by eexists|].
    exists []. by rewrite app_nil_r.
Qed.

(** X8.  In an existing image directory the top-up raises [IndexError]
    exactly when fewer images than the target were downloaded and the
    directory holds no [.jpg] file; it has then only logged its start.
    Otherwise it returns the number of indices it had to fill. *)
Theorem top_up_raises_iff_starved (images_dir species_name : string)
    (downloaded_count : nat) (d : directory) w :
  fs w !! images_dir = Some d →
  ∃ w',
    top_up cfg images_dir species_name downloaded_count w
    = (if starved cfg d downloaded_count then Raise IndexError
       else Ret (MAX_IMAGES_PER_SPECIES cfg - downloaded_count), w')
    ∧ if starved cfg d downloaded_count
      then w' = {| rng := rng w; completions := completions w;
                   stdout := stdout w ++ [msg_augmenting species_name];
                   fs := fs w; journal := journal w |}
      else is_Some (fs w' !! images_dir)
           ∧ ∃ j, journal w' = journal w ++ j ∧ requests j = [].
Proof. apply top_up_cases. Qed.

End TopUpFacts.

(** [top_up_raises_iff_starved] at an empty directory and at one that
    holds a download. *)
Lemma top_up_raises_iff_starved_witness :
  (top_up (small 3) "/r/Aphid/images" "Aphid" 0 (made [] [])).1
  = Raise IndexError
  ∧ (top_up (small 3) "/r/Aphid/images" "Aphid" 1
       (fetch_all only_B (small 3) "/r/Aphid/images" "Aphid"
                  [Val "A"; Val "B"] (made [] [])).2).1
    = Ret 2%nat.
Proof.
  split.
  - destruct (top_up_raises_iff_starved (small 3) "/r/Aphid/images" "Aphid"
                0 ∅ (made [] [])) as (w' & -> & _); reflexivity.
  - destruct (top_up_raises_iff_starved (small 3) "/r/Aphid/images" "Aphid" 1
                (fs (fetch_all only_B (small 3) "/r/Aphid/images" "Aphid"
                       [Val "A"; Val "B"] (made [] [])).2
                   !!! "/r/Aphid/images")
                (fetch_all only_B (small 3) "/r/Aphid/images" "Aphid"
                       [Val "A"; Val "B"] (made [] [])).2)
      as (w' & -> & _); vm_compute; reflexivity.
Defined.

(** ** A category, stage by stage *)

Section Stages.

Variable E : env.
Variable cfg : config.

Lemma safe_mkdir_ret (p : string) w :
  safe_mkdir p w = (Ret (), (safe_mkdir p w).2)
  ∧ fs (safe_mkdir p w).2 !! p = Some (default ∅ (fs w !! p))
  ∧ delete p (fs (safe_mkdir p w).2) = delete p (fs w)
  ∧ stdout (safe_mkdir p w).2 = stdout w
  ∧ journal (safe_mkdir p w).2 = journal w.
Proof.
  unfold safe_mkdir, get_fs, put_fs. unfold_M.
  destruct (fs w !! p) as [d|] eqn:Hd; cbn; split_and!; try done.
  - by rewrite lookup_insert_eq.
  - rewrite delete_insert_eq. by rewrite delete_id.
Qed.

(** A category with metadata, stage by stage: the candidates, the batch
    of downloads and what is left to the top-up. *)
Lemma process_species_stages (species_path : string) w :
  csv_files E species_path ≠ [] →
  "image_url" ∈ columns (merged E species_path) →
  (1 ≤ MAX_THREADS cfg)%nat →
  let species_name := Str.basename species_path in
  let images_dir := Str.path_join species_path "images" in
  let d0 := default ∅ (fs w !! images_dir) in
  ∃ (urls : list value) (downloaded : list nat) w2,
    urls ⊆+ unique (dropna (getitem (merged E species_path) "image_url"))
    ∧ length urls
      = MAX_IMAGES_PER_SPECIES cfg
        `min` length (unique (dropna (getitem (merged E species_path)
                                              "image_url")))
    ∧ length downloaded = length (List.filter (fetchable E cfg) urls)
    ∧ fs w2 !! images_dir
      = Some (foldl (store E cfg) d0
                    (submissions images_dir species_name 1 urls))
    ∧ delete images_dir (fs w2) = delete images_dir (fs w)
    ∧ (∃ j, journal w2 = journal w ++ j
            ∧ requests j ≡ₚ urls ∧ opens j = [])
    ∧ process_species E cfg species_path w
      = match top_up cfg images_dir species_name (length downloaded)
                (log (msg_downloaded (length downloaded) species_name) w2).2
        with
        | (Ret augment_count, w3) =>
            log (msg_summary species_name (length downloaded) augment_count
                             (MAX_IMAGES_PER_SPECIES cfg)) w3
        | (Raise e, w3) => (Raise e, w3)
        end.
Proof.
  intros Hfiles Hcol Hthreads species_name images_dir d0.
  destruct (safe_mkdir_ret images_dir w) as (Hmk & Hdir & Hdel & _ & _).
  set (wA := (log (msg_processing species_name)
                  (safe_mkdir images_dir w).2).2).
  destruct (candidate_urls_keeps_all_up_to_target_aux cfg
              (merged E species_path) wA)
    as (urls & w1 & Hurls & Hsub & Hlen & _ & _ & Hf1 & Hj1).
  set (wB := (log (msg_downloading (length urls) species_name) w1).2).
  assert (fs wB !! images_dir = Some d0) as HdB.
  { unfold wB. cbn. rewrite Hf1. unfold wA. cbn. exact Hdir. }
  destruct (fetch_all_spec E cfg images_dir species_name urls d0 wB
              Hthreads HdB)
    as (downloaded & order & w2 & Hrun & Hcount & _ & _ & _ & Hfs2 & _).
  exists urls, downloaded, w2. split_and!; [done..| | | |].
  - by rewrite Hfs2, lookup_insert_eq.
  - rewrite Hfs2, delete_insert_eq. unfold wB. cbn. rewrite Hf1.
    unfold wA. cbn. exact Hdel.
  - destruct (fetch_all_total E cfg images_dir species_name urls wB Hthreads)
      as (downloaded' & j & w2' & Hrun' & _ & _ & _ & Hj & Hreq & Hop).
    rewrite Hrun in Hrun'. injection Hrun' as <- <-.
    exists j. split_and!; [|done..].
    rewrite Hj. unfold wB. cbn. rewrite Hj1. unfold wA. cbn.
    by destruct (safe_mkdir_ret images_dir w) as (_ & _ & _ & _ & ->).
  - unfold process_species. fold species_name images_dir.
    destruct (csv_files E species_path) as [|f files] eqn:Hcsv; [done|].
    rewrite bool_decide_eq_true_2 by done. cbn [negb].
    unfold mbind at 1, M_bind at 1. rewrite Hmk.
    unfold mbind at 1, M_bind at 1.
    change (log (msg_processing species_name) (safe_mkdir images_dir w).2)
      with (Ret (), wA).
    unfold mbind at 1, M_bind at 1. rewrite Hurls.
    unfold mbind at 1, M_bind at 1.
    change (log (msg_downloading (length urls) species_name) w1)
      with (Ret (), wB).
    unfold mbind at 1, M_bind at 1. rewrite Hrun.
    unfold mbind at 1, M_bind at 1.
    change (log (msg_downloaded (length downloaded) species_name) w2)
      with (Ret (), (log (msg_downloaded (length downloaded) species_name)
                         w2).2).
    unfold mbind at 1, M_bind at 1.
    by destruct (top_up _ _ _ _ _) as [[a|e] w3].
Qed.

End Stages.

Section Outcomes.

Variable E : env.
Variable cfg : config.

Lemma process_species_index_error (species_path : string) w w' :
  (1 ≤ MAX_THREADS cfg)%nat →
  process_species E cfg species_path w = (Raise IndexError, w') →
  ∃ d, fs w' !! Str.path_join species_path "images" = Some d
       ∧ jpg_names d = []
       ∧ last (stdout w')
         = Some (msg_augmenting (Str.basename species_path)).
Proof.
  intros Hthreads Hrun.
  destruct (decide (lacks_metadata E species_path)) as [Hlacks|Hhas].
  { destruct (process_species_skip E cfg species_path w Hlacks)
      as (warning & _ & Hskip). congruence. }
  assert (csv_files E species_path ≠ []) as Hfiles.
  { intros Hnil. apply Hhas. by left. }
  assert ("image_url" ∈ columns (merged E species_path)) as Hcol.
  { destruct (decide ("image_url" ∈ columns (merged E species_path)));
      [done|]. destruct Hhas. by right. }
  destruct (process_species_stages E cfg species_path w Hfiles Hcol Hthreads)
    as (urls & downloaded & w2 & _ & _ & _ & Hd2 & _ & _ & Heq).
  rewrite Heq in Hrun. clear Heq.
  match type of Hrun with context [top_up _ _ _ _ ?w0] =>
    destruct (top_up_cases cfg _ (Str.basename species_path)
                (length downloaded) _ w0 Hd2) as (w3 & Htop & Hw3)
  end.
  rewrite Htop in Hrun.
  destruct (starved cfg _ (length downloaded)) eqn:Hstarved.
  - injection Hrun as <-. subst w3. cbn.
    eexists. split; [exact Hd2|]. split; [|by rewrite last_snoc].
    unfold starved in Hstarved.
    apply andb_true_iff in Hstarved as [_ Hpool].
    by apply bool_decide_eq_true in Hpool.
  - discriminate Hrun.
Qed.

(** X9.  With at least one worker, an [IndexError] out of
    [process_species] is that of a starved top-up: the image directory
    then holds no [.jpg] file, and the last line logged is the start of
    the augmentation. *)
Theorem index_error_means_starved_top_up (species_path : string) w w' :
  (1 ≤ MAX_THREADS cfg)%nat →
  process_species E cfg species_path w = (Raise IndexError, w') →
  ∃ d, fs w' !! Str.path_join species_path "images" = Some d
       ∧ jpg_names d = []
       ∧ last (stdout w')
         = Some (msg_augmenting (Str.basename species_path)).
Proof. apply process_species_index_error. Qed.





End Outcomes.

Lemma augment_loop_originals (images_dir species_name : string)
    (existing_images : list path) (n img_index augment_count : nat)
    (d dcur : directory) w :
  existing_images ≠ [] →
  Forall (λ p : path, p.1 = images_dir ∧ is_Some (d !! p.2)) existing_images →
  (∀ i, img_index ≤ i < img_index + n → d !! img_name species_name i = None) →
  fs w !! images_dir = Some dcur →
  (∀ f, is_Some (d !! f) → dcur !! f = d !! f) →
  ∃ j dfin w',
    augment_loop images_dir species_name existing_images
                 n img_index augment_count w
    = (Ret (augment_count + n), w')
    ∧ journal w' = journal w ++ j
    ∧ fs w' !! images_dir = Some dfin
    ∧ Forall (λ o : path * image,
                o.1.1 = images_dir ∧ d !! o.1.2 = Some o.2) (opens j)
    ∧ length (opens j) = n
    ∧ (∀ f, is_Some (d !! f) → dfin !! f = d !! f).
Proof.
  intros Hne Hex. revert img_index augment_count dcur w.
  induction n as [|n IH]; intros img_index augment_count dcur w Hfree Hd Hsame.
  - exists [], dcur, w. cbn. rewrite app_nil_r, Nat.add_0_r. by split_and!.
  - cbn [augment_loop]. unfold_M.
    destruct (choice_spec existing_images w Hne)
      as (src & w1 & -> & (Hc1 & Ho1 & Hf1 & Hj1) & Hsrc).
    rewrite Forall_forall in Hex.
    destruct (Hex src Hsrc) as [Hdir [img Himg]].
    assert (dcur !! src.2 = Some img) as Hcur
      by (rewrite Hsame; [done|by eexists]).
    rewrite (open_file_spec src dcur img) by (by rewrite ?Hdir, ?Hf1).
    match goal with |- context [augment_image img ?w] =>
      destruct (augment_image_spec img w)
        as (img' & w2 & -> & (Hc2 & Ho2 & Hf2 & Hj2) & Himg')
    end.
    cbn in Hc2, Ho2, Hf2, Hj2.
    rewrite (save_spec img' _ dcur) by (by cbn; rewrite Hf2, Hf1).
    match goal with |- context [augment_loop _ _ _ _ _ _ ?w] =>
      destruct (IH (img_index + 1) (augment_count + 1)
                   (<[img_name species_name img_index := img']> dcur) w)
        as (j & dfin & w3 & -> & Hj3 & Hf3 & Hopens & Hlen & Hfin)
    end.
    { intros i Hi. apply Hfree. lia. }
    { cbn. by rewrite lookup_insert_eq. }
    { intros f Hf. rewrite lookup_insert_ne; [by apply Hsame|].
      intros <-. rewrite (Hfree img_index) in Hf by lia.
      by destruct Hf. }
    cbn in Hj3.
    exists (ev_open src img
              :: ev_save (images_dir, img_name species_name img_index) img'
              :: j), dfin, w3.
    split_and!.
    + do 2 f_equal. lia.
    + rewrite Hj3, Hj2, Hj1. by rewrite <- !app_assoc.
    + done.
    + rewrite !opens_cons. by constructor.
    + rewrite !opens_cons. cbn. by rewrite Hlen.
    + done.
Qed.

Section Originals.

Variable cfg : config.

(** X11.  When no file of the image directory bears an index the top-up
    is about to write, every image the top-up opens is a file of the
    directory as it was before the loop, one for each index to fill, and
    none of those files is changed: augmented images are made from
    originals only. *)
Theorem top_up_samples_originals (images_dir species_name : string)
    (downloaded_count : nat) (d : directory) w :
  (downloaded_count < MAX_IMAGES_PER_SPECIES cfg)%nat →
  fs w !! images_dir = Some d →
  jpg_names d ≠ [] →
  (∀ i, downloaded_count < i ≤ MAX_IMAGES_PER_SPECIES cfg →
        d !! img_name species_name i = None) →
  ∃ j d' w',
    top_up cfg images_dir species_name downloaded_count w
    = (Ret (MAX_IMAGES_PER_SPECIES cfg - downloaded_count), w')
    ∧ journal w' = journal w ++ j
    ∧ fs w' !! images_dir = Some d'
    ∧ Forall (λ o : path * image,
                o.1.1 = images_dir ∧ d !! o.1.2 = Some o.2) (opens j)
    ∧ length (opens j) = MAX_IMAGES_PER_SPECIES cfg - downloaded_count
    ∧ (∀ f, is_Some (d !! f) → d' !! f = d !! f).
Proof.
  intros Hlt Hd Hpool Hfree. unfold top_up.
  apply Nat.ltb_lt in Hlt as Hltb. rewrite Hltb.
  unfold log, listdir, get_fs. unfold_M. cbn. rewrite Hd.
  fold (jpg_names d).
  set (existing_images := (λ f0, (images_dir, f0)) <$> jpg_names d).
  assert (Forall (λ p : path, p.1 = images_dir ∧ is_Some (d !! p.2))
                 existing_images) as Hex.
  { rewrite Forall_forall. intros p (g & -> & Hg)%list_elem_of_fmap.
    split; [done|]. by apply jpg_names_elem in Hg as [? _]. }
  assert (existing_images ≠ []) as Hne.
  { unfold existing_images. by destruct (jpg_names d). }
  match goal with |- context [augment_loop _ _ _ _ _ _ ?w0] =>
    destruct (augment_loop_originals images_dir species_name existing_images
                (MAX_IMAGES_PER_SPECIES cfg - downloaded_count)
                (downloaded_count + 1) 0 d d w0 Hne Hex)
      as (j & d' & w' & -> & Hj & Hfs & Hopens & Hlen & Hsame)
  end.
  - intros i Hi. apply Hfree. lia.
  - done.
  - done.
  - exists j, d', w'. by split_and!.
Qed.

End Originals.

(** [top_up_samples_originals] after the download of A into index 1,
    with a target of three. *)
Lemma top_up_samples_originals_witness :
  ∃ j,
    length (opens j) = 2
    ∧ Forall (λ o : path * image,
                o.1 = ("/r/Aphid/images", "BugLiteAI_Aphid_Img0001.jpg")
                ∧ o.2 = resize (512, 512) (convert "RGB" (Image_open "a")))
             (opens j).
Proof.
  destruct (top_up_samples_originals (small 3) "/r/Aphid/images" "Aphid" 1
              {[ "BugLiteAI_Aphid_Img0001.jpg"
                 := resize (512, 512) (convert "RGB" (Image_open "a")) ]}
              {| rng := []; completions := []; stdout := [];
                 fs := {[ "/r/Aphid/images"
                          := {[ "BugLiteAI_Aphid_Img0001.jpg"
                                := resize (512, 512)
                                          (convert "RGB" (Image_open "a")) ]} ]};
                 journal := [] |})
    as (j & d' & w' & _ & _ & _ & Hopens & Hlen & _).
  - simpl. lia.
  - vm_compute. reflexivity.
  - vm_compute. discriminate.
  - intros i Hi.
    assert (i = 2 ∨ i = 3) as [-> | ->] by (simpl in Hi; lia);
      vm_compute; reflexivity.
  - exists j. split; [exact Hlen|].
    eapply Forall_impl; [exact Hopens|].
    intros [[dir f] img] [Hdir Himg]. simpl in *. subst dir.
    apply lookup_singleton_Some in Himg as [<- <-]. done.
Defined.

(** ** What a run leaves alone *)

Section Preserves.

Variable R : relation (gmap string directory).
Context `{!PreOrder R}.

(** The directories that may be made and written into. *)
Variable P : string → Prop.

Hypothesis R_mkdir : ∀ q f, P q → f !! q = None → R f (<[q := ∅]> f).
Hypothesis R_save : ∀ q nm img d f,
  P q → f !! q = Some d → R f (<[q := <[nm := img]> d]> f).

Lemma preserves_same {A} (m : M A) :
  (∀ w, fs (m w).2 = fs w) → preserves R m.
Proof. intros Hm w. by rewrite Hm. Qed.

Lemma preserves_ret {A} (a : A) : preserves R (mret a).
Proof. by apply preserves_same. Qed.

Lemma preserves_raise {A} (e : exn) : preserves R (@raise A e).
Proof. by apply preserves_same. Qed.

Lemma preserves_bind {A B} (m : M A) (f : A → M B) :
  preserves R m → (∀ a, preserves R (f a)) → preserves R (m ≫= f).
Proof.
  intros Hm Hf w. specialize (Hm w). unfold_M.
  destruct (m w) as [[a|e] w1]; cbn in *; [|done].
  etrans; [exact Hm|apply Hf].
Qed.

Lemma preserves_try {A} (body handler : M A) :
  preserves R body → preserves R handler →
  preserves R (try_except body handler).
Proof.
  intros Hb Hh w. specialize (Hb w). unfold_M.
  destruct (body w) as [[a|e] w1]; cbn in *; [done|].
  etrans; [exact Hb|apply Hh].
Qed.

Lemma preserves_log (m : message) : preserves R (log m).
Proof. by apply preserves_same. Qed.

Lemma preserves_record (e : event) : preserves R (record e).
Proof. by apply preserves_same. Qed.

Lemma preserves_draw : preserves R draw.
Proof.
  apply preserves_same. intros w. unfold draw. by destruct (rng w).
Qed.

Lemma preserves_next_completion : preserves R next_completion.
Proof.
  apply preserves_same. intros w. unfold next_completion.
  by destruct (completions w).
Qed.

Lemma preserves_listdir (p : string) : preserves R (listdir p).
Proof.
  apply preserves_same. intros w. unfold listdir, get_fs. unfold_M.
  by destruct (fs w !! p).
Qed.

Lemma preserves_open_file (p : path) : preserves R (open_file p).
Proof.
  apply preserves_same. intros w. unfold open_file, get_fs, record. unfold_M.
  destruct (fs w !! p.1) as [d|]; cbn; [|done]. by destruct (d !! p.2).
Qed.

Lemma preserves_safe_mkdir (q : string) : P q → preserves R (safe_mkdir q).
Proof.
  intros Hq w. unfold safe_mkdir, get_fs, put_fs. unfold_M.
  destruct (fs w !! q) eqn:Hd; cbn; [done|]. by apply R_mkdir.
Qed.

Lemma preserves_save (img : image) (p : path) :
  P p.1 → preserves R (save img p).
Proof.
  intros Hp w. unfold save, get_fs, put_fs, record. unfold_M.
  destruct (fs w !! p.1) eqn:Hd; cbn; [|done]. by apply R_save.
Qed.

Ltac preserves_step :=
  match goal with
  | |- preserves _ (mbind _ _) => apply preserves_bind; [|intros ?]
  | |- preserves _ (_ ≫= _) => apply preserves_bind; [|intros ?]
  | |- preserves _ (try_except _ _) => apply preserves_try
  | |- preserves _ (mret _) => apply preserves_ret
  | |- preserves _ (raise _) => apply preserves_raise
  | |- preserves _ (log _) => apply preserves_log
  | |- preserves _ (record _) => apply preserves_record
  | |- preserves _ draw => apply preserves_draw
  | |- preserves _ next_completion => apply preserves_next_completion
  | |- preserves _ (listdir _) => apply preserves_listdir
  | |- preserves _ (open_file _) => apply preserves_open_file
  | |- preserves _ (match ?x with _ => _ end) => destruct x
  | |- preserves _ (if ?b then _ else _) => destruct b
  | |- preserves _ _ => solve [auto]
  end.

Ltac preserves := repeat preserves_step.

Lemma preserves_randbelow (n : nat) : preserves R (randbelow n).
Proof. unfold randbelow. preserves. Qed.

Lemma preserves_random_random : preserves R random_random.
Proof. unfold random_random. preserves. Qed.

Lemma preserves_choice {A} (seq : list A) : preserves R (choice seq).
Proof. unfold choice. pose proof preserves_randbelow. preserves. Qed.

Lemma preserves_uniform (a b : Q) : preserves R (uniform a b).
Proof. unfold uniform. pose proof preserves_random_random. preserves. Qed.

Lemma preserves_shuffle {A} (x : list A) : preserves R (shuffle x).
Proof.
  unfold shuffle. generalize (length x) as n. intros n. revert x.
  induction n as [|[|i] IH]; intros x; [apply preserves_ret..|].
  rewrite shuffle_from_step. pose proof preserves_randbelow. preserves.
Qed.

Lemma preserves_augment_image (img : image) : preserves R (augment_image img).
Proof.
  unfold augment_image.
  pose proof preserves_random_random. pose proof preserves_uniform.
  pose proof (@preserves_choice nat). preserves.
Qed.

Lemma preserves_drain {A} (n : nat) (running : list A) :
  preserves R (drain n running).
Proof.
  revert running. induction n as [|n IH]; intros running; cbn [drain];
    preserves.
Qed.

Lemma preserves_as_completed {A} (max_workers : nat)
    (pending running : list A) :
  preserves R (as_completed max_workers pending running).
Proof.
  revert running. induction pending as [|t pending IH]; intros running;
    cbn [as_completed]; pose proof (@preserves_drain A); preserves.
Qed.

Section PreservesScript.

Variable E : env.
Variable cfg : config.

Lemma preserves_download_image (url : value) (p : path) :
  P p.1 → preserves R (download_image E cfg url p).
Proof.
  intros Hp. unfold download_image.
  pose proof (λ img, preserves_save img p Hp). preserves.
Qed.

Lemma preserves_results (futures : list task) :
  Forall (λ t : task, P t.2.1) futures →
  preserves R (results E cfg futures).
Proof.
  induction 1 as [|[url p] rest Hp _ IH]; cbn [results]; [preserves|].
  pose proof (preserves_download_image url p Hp). preserves.
Qed.

Lemma preserves_fetch_all (images_dir species_name : string)
    (urls : list value) :
  P images_dir →
  preserves R (fetch_all E cfg images_dir species_name urls).
Proof.
  intros Hdir w. unfold fetch_all.
  destruct (MAX_THREADS cfg =? 0)%nat; [done|]. unfold_M.
  destruct (as_completed_spec (MAX_THREADS cfg)
              (submissions images_dir species_name 1 urls) [] w)
    as (order & w1 & -> & (_ & _ & Hfs & _) & Horder).
  assert (Forall (λ t : task, P t.2.1) order) as Horder'.
  { rewrite Horder. cbn.
    eapply Forall_impl; [apply submissions_dir|]. by intros t ->. }
  pose proof (preserves_results order Horder' w1) as Hres.
  rewrite Hfs in Hres.
  by destruct (results E cfg order w1) as [[rs|e] w2].
Qed.

Lemma preserves_augment_loop (images_dir species_name : string)
    (existing_images : list path) (n img_index augment_count : nat) :
  P images_dir →
  preserves R (augment_loop images_dir species_name existing_images
                            n img_index augment_count).
Proof.
  intros Hdir. revert img_index augment_count.
  induction n as [|n IH]; intros img_index augment_count;
    cbn [augment_loop]; [preserves|].
  pose proof (@preserves_choice path). pose proof preserves_augment_image.
  pose proof (λ img nm, preserves_save img (images_dir, nm) Hdir).
  preserves.
Qed.

Lemma preserves_top_up (images_dir species_name : string)
    (downloaded_count : nat) :
  P images_dir →
  preserves R (top_up cfg images_dir species_name downloaded_count).
Proof.
  intros Hdir. unfold top_up.
  pose proof (λ ex n i c, preserves_augment_loop images_dir species_name
                            ex n i c Hdir).
  preserves.
Qed.

Lemma preserves_candidate_urls (df : DataFrame) :
  preserves R (candidate_urls cfg df).
Proof. unfold candidate_urls. pose proof (@preserves_shuffle value). preserves. Qed.

Lemma preserves_process_species (species_path : string) :
  P (Str.path_join species_path "images") →
  preserves R (process_species E cfg species_path).
Proof.
  intros Hdir. unfold process_species.
  pose proof (preserves_safe_mkdir _ Hdir).
  pose proof preserves_candidate_urls.
  pose proof (λ urls, preserves_fetch_all _ (Str.basename species_path)
                        urls Hdir).
  pose proof (λ n, preserves_top_up _ (Str.basename species_path) n Hdir).
  preserves.
Qed.

Lemma preserves_for_each (folders : list string) :
  Forall (λ p, P (Str.path_join p "images")) folders →
  preserves R (for_each E cfg folders).
Proof.
  induction 1 as [|p rest Hp _ IH]; cbn [for_each]; [preserves|].
  pose proof (preserves_process_species p Hp). preserves.
Qed.

Lemma preserves_main :
  Forall P (images_dirs E) → preserves R (main E cfg).
Proof.
  intros Hdirs. unfold main.
  assert (preserves R (for_each E cfg (species_folders E))).
  { apply preserves_for_each. unfold images_dirs in Hdirs.
    by rewrite Forall_fmap in Hdirs. }
  preserves.
Qed.

End PreservesScript.

End Preserves.

Lemma same_outside_preorder (P : string → Prop) : PreOrder (same_outside P).
Proof.
  split.
  - by intros f q _.
  - intros f1 f2 f3 H12 H23 q Hq. by rewrite H23, H12.
Qed.

Lemma same_outside_mkdir (P : string → Prop) (q : string)
    (f : gmap string directory) :
  P q → f !! q = None → same_outside P f (<[q := ∅]> f).
Proof.
  intros Hq _ q' Hq'. rewrite lookup_insert_ne; [done|]. by intros ->.
Qed.

Lemma same_outside_save (P : string → Prop) (q nm : string) (img : image)
    (d : directory) (f : gmap string directory) :
  P q → f !! q = Some d → same_outside P f (<[q := <[nm := img]> d]> f).
Proof.
  intros Hq _ q' Hq'. rewrite lookup_insert_ne; [done|]. by intros ->.
Qed.

Lemma no_file_lost_preorder : PreOrder no_file_lost.
Proof.
  split.
  - intros f q d Hd. by exists d.
  - intros f1 f2 f3 H12 H23 q d Hd.
    destruct (H12 q d Hd) as (d2 & Hd2 & Hsub2).
    destruct (H23 q d2 Hd2) as (d3 & Hd3 & Hsub3).
    exists d3. split; [done|]. by etrans.
Qed.

Lemma no_file_lost_mkdir (q : string) (f : gmap string directory) :
  True → f !! q = None → no_file_lost f (<[q := ∅]> f).
Proof.
  intros _ Hq q' d Hd. exists d. split; [|done].
  rewrite lookup_insert_ne; [done|]. intros ->. congruence.
Qed.

Lemma no_file_lost_save (q nm : string) (img : image) (d : directory)
    (f : gmap string directory) :
  True → f !! q = Some d → no_file_lost f (<[q := <[nm := img]> d]> f).
Proof.
  intros _ Hq q' d' Hd'. destruct (decide (q = q')) as [<-|Hne].
  - rewrite lookup_insert_eq. eexists. split; [done|].
    assert (d' = d) as -> by congruence.
    rewrite dom_insert. apply union_subseteq_r.
  - exists d'. by rewrite lookup_insert_ne.
Qed.

Section Frames.

Variable E : env.
Variable cfg : config.

(** X12.  However it ends, [process_species] changes no directory but
    the image directory of its category. *)
Theorem process_species_changes_only_its_images_dir
    (species_path : string) w :
  let images_dir := Str.path_join species_path "images" in
  delete images_dir (fs (process_species E cfg species_path w).2)
  = delete images_dir (fs w).
Proof.
  intros images_dir. apply map_eq. intros q.
  destruct (decide (q = images_dir)) as [->|Hne].
  - by rewrite !lookup_delete_eq.
  - rewrite !lookup_delete_ne by done.
    pose proof (same_outside_preorder (λ q, q = images_dir)).
    by apply (preserves_process_species (same_outside (λ q, q = images_dir))
                (λ q, q = images_dir)
                (same_outside_mkdir _) (same_outside_save _)
                E cfg species_path eq_refl w).
Qed.

(** X13.  However it ends, [main] changes no directory but the image
    directories of the subdirectories of the root. *)
Theorem main_changes_only_images_dirs (q : string) w :
  q ∉ images_dirs E →
  fs (main E cfg w).2 !! q = fs w !! q.
Proof.
  intros Hq.
  pose proof (same_outside_preorder (λ q, q ∈ images_dirs E)).
  apply (preserves_main (same_outside (λ q, q ∈ images_dirs E))
           (λ q, q ∈ images_dirs E)
           (same_outside_mkdir _) (same_outside_save _) E cfg);
    [|done].
  by apply Forall_forall.
Qed.

Lemma process_species_no_file_lost (species_path : string) w :
  no_file_lost (fs w) (fs (process_species E cfg species_path w).2).
Proof.
  pose proof no_file_lost_preorder.
  by apply (preserves_process_species no_file_lost (λ _, True)
              no_file_lost_mkdir no_file_lost_save E cfg species_path I w).
Qed.

Lemma main_no_file_lost w :
  no_file_lost (fs w) (fs (main E cfg w).2).
Proof.
  pose proof no_file_lost_preorder.
  apply (preserves_main no_file_lost (λ _, True)
           no_file_lost_mkdir no_file_lost_save E cfg).
  by apply Forall_forall.
Qed.

(** X14.  Neither [process_species] nor [main] ever removes a file or a
    directory, however they end: a file that exists before the call
    exists after it (its content may have been written again). *)
Theorem no_file_is_ever_removed (species_path q f : string) (d : directory) w :
  fs w !! q = Some d →
  is_Some (d !! f) →
  (∃ d', fs (process_species E cfg species_path w).2 !! q = Some d'
         ∧ is_Some (d' !! f))
  ∧ (∃ d', fs (main E cfg w).2 !! q = Some d' ∧ is_Some (d' !! f)).
Proof.
  intros Hd Hf. apply elem_of_dom in Hf. split.
  - destruct (process_species_no_file_lost species_path w q d Hd)
      as (d' & Hd' & Hsub).
    exists d'. split; [done|]. apply elem_of_dom. by apply Hsub.
  - destruct (main_no_file_lost w q d Hd) as (d' & Hd' & Hsub).
    exists d'. split; [done|]. apply elem_of_dom. by apply Hsub.
Qed.

End Frames.

Section Requests.

Variable E : env.
Variable cfg : config.

Lemma submseteq_NoDup {A} (l k : list A) : l ⊆+ k → NoDup k → NoDup l.
Proof.
  intros [k' Hk]%submseteq_Permutation Hnd. rewrite Hk in Hnd.
  by apply NoDup_app in Hnd as [? _].
Qed.

(** X15.  With at least one worker, the locations a category requests
    are distinct non-missing [image_url] values of its merged metadata,
    each requested once, and there are at most
    [MAX_IMAGES_PER_SPECIES] requests; this holds however the call
    ends. *)
Theorem process_species_requests_metadata_only (species_path : string) w :
  (1 ≤ MAX_THREADS cfg)%nat →
  ∃ j,
    journal (process_species E cfg species_path w).2 = journal w ++ j
    ∧ requests j
      ⊆+ unique (dropna (getitem (merged E species_path) "image_url"))
    ∧ NoDup (requests j)
    ∧ length (requests j) ≤ MAX_IMAGES_PER_SPECIES cfg.
Proof.
  intros Hthreads.
  destruct (decide (lacks_metadata E species_path)) as [Hlacks|Hhas].
  { destruct (process_species_skip E cfg species_path w Hlacks)
      as (warning & _ & ->). exists []. cbn. rewrite app_nil_r.
    split_and!; [done|apply submseteq_nil_l|constructor|lia]. }
  assert (csv_files E species_path ≠ []) as Hfiles.
  { intros Hnil. apply Hhas. by left. }
  assert ("image_url" ∈ columns (merged E species_path)) as Hcol.
  { destruct (decide ("image_url" ∈ columns (merged E species_path)));
      [done|]. destruct Hhas. by right. }
  destruct (process_species_stages E cfg species_path w Hfiles Hcol Hthreads)
    as (urls & downloaded & w2 & Hsub & Hlen & _ & Hd2 & _
        & (j2 & Hj2 & Hreq2 & _) & ->).
  match goal with |- context [top_up _ _ _ _ ?w0] =>
    destruct (top_up_cases cfg _ (Str.basename species_path)
                (length downloaded) _ w0 Hd2) as (w3 & -> & Hw3)
  end.
  assert (requests j2 ⊆+ unique (dropna (getitem (merged E species_path)
                                                 "image_url"))) as Hin
    by by rewrite Hreq2.
  destruct (starved cfg _ (length downloaded)).
  - subst w3. exists j2. cbn. split_and!; [done..| |].
    + eapply submseteq_NoDup; [exact Hin|apply unique_from_NoDup].
    + rewrite Hreq2, Hlen. lia.
  - destruct Hw3 as [_ (j3 & Hj3 & Hreq3)]. exists (j2 ++ j3). cbn.
    rewrite requests_app, Hreq3, app_nil_r. split_and!; [|done| |].
    + rewrite Hj3. cbn. by rewrite Hj2, app_assoc.
    + eapply submseteq_NoDup; [exact Hin|apply unique_from_NoDup].
    + rewrite Hreq2, Hlen. lia.
Qed.

End Requests.

(** ** The pool: one worker, and enough workers *)

Lemma pick_singleton {A} (k : nat) (t : A) : pick k [t] = Some (t, []).
Proof.
  unfold pick. cbn [length]. by rewrite Nat.mod_1_r.
Qed.

Lemma as_completed_one_worker {A} (pending : list A) (t : A) w :
  ∃ w', as_completed 1 pending [t] w = (Ret (t :: pending), w')
        ∧ scheduled w w'.
Proof.
  revert t w. induction pending as [|t' pending IH]; intros t w.
  - cbn. unfold_M.
    destruct (next_completion_spec w) as (k & w1 & -> & Hw1).
    rewrite pick_singleton. cbn. by exists w1.
  - cbn [as_completed length Nat.ltb Nat.leb]. unfold_M.
    destruct (next_completion_spec w) as (k & w1 & -> & Hw1).
    rewrite pick_singleton. cbn [app].
    destruct (IH t' w1) as (w2 & -> & Hw2).
    exists w2. split; [done|]. by eapply scheduled_trans.
Qed.

Section OneWorker.

Variable E : env.
Variable cfg : config.

(** X16.  With a single worker the downloads run one after the other in
    the order of the candidate list: the requests are issued in that
    order, whatever the completion tape says. *)
Theorem one_worker_requests_in_list_order (images_dir species_name : string)
    (urls : list value) w :
  MAX_THREADS cfg = 1 →
  ∃ downloaded j w',
    fetch_all E cfg images_dir species_name urls w = (Ret downloaded, w')
    ∧ journal w' = journal w ++ j
    ∧ requests j = urls.
Proof.
  intros Hone. unfold fetch_all. rewrite Hone. cbn [Nat.eqb]. unfold_M.
  destruct urls as [|url urls].
  - cbn. exists [], [], w. by rewrite app_nil_r.
  - cbn [submissions as_completed length Nat.ltb Nat.leb app].
    match goal with |- context [as_completed 1 ?p [?t] w] =>
      destruct (as_completed_one_worker p t w)
        as (w1 & -> & (_ & _ & _ & Hj1))
    end.
    match goal with |- context [results E cfg ?ts w1] =>
      destruct (results_total E cfg ts w1)
        as (rs & j & w2 & -> & _ & _ & _ & _ & Hj2 & Hreq & _)
    end.
    eexists _, j, w2. split_and!; [done|by rewrite Hj2, Hj1|].
    rewrite Hreq. cbn. by rewrite submissions_urls.
Qed.

End OneWorker.

Lemma as_completed_all_start {A} (max_workers : nat)
    (pending running : list A) w :
  length running + length pending ≤ max_workers →
  as_completed max_workers pending running w
  = drain (length (running ++ pending)) (running ++ pending) w.
Proof.
  revert running. induction pending as [|t pending IH]; intros running Hle.
  - cbn. by rewrite app_nil_r.
  - cbn [as_completed]. cbn in Hle.
    destruct (Nat.ltb_spec (length running) max_workers); [|lia].
    rewrite IH by (rewrite length_app; cbn; lia).
    by rewrite <- app_assoc.
Qed.

Lemma pick_at {A} (j : nat) (running : list A) (t : A) :
  running !! j = Some t → pick j running = Some (t, delete j running).
Proof.
  intros Hj. unfold pick.
  rewrite Nat.mod_small by by eapply lookup_lt_Some.
  by rewrite Hj.
Qed.

Lemma drain_any_order {A} (order running : list A) :
  order ≡ₚ running →
  ∃ finishing, ∀ r o f jr,
    drain (length running) running
          {| rng := r; completions := finishing; stdout := o; fs := f;
             journal := jr |}
    = (Ret order,
       {| rng := r; completions := []; stdout := o; fs := f;
          journal := jr |}).
Proof.
  revert running. induction order as [|t order IH]; intros running Hperm.
  - apply Permutation_nil_l in Hperm as <-. by exists [].
  - assert (t ∈ running) as [j Hj]%list_elem_of_lookup
      by (rewrite <- Hperm; left).
    pose proof (delete_Permutation running j t Hj) as Hdel.
    destruct (IH (delete j running)) as (finishing & Hrun).
    { apply (Permutation_cons_inv (a := t)). by etrans. }
    exists (j :: finishing). intros r o f jr.
    pose proof (Permutation_length Hdel) as Hlen. cbn in Hlen.
    rewrite Hlen. cbn [drain]. unfold_M. cbn.
    rewrite (pick_at j running t Hj). by rewrite Hrun.
Qed.

(** X17.  With at least as many workers as downloads, every order of the
    submitted downloads is a possible order of completion: for each
    there is a completion tape under which [as_completed] yields it. *)
Theorem every_completion_order_is_possible {A} (max_workers : nat)
    (submitted order : list A) :
  length submitted ≤ max_workers →
  order ≡ₚ submitted →
  ∃ finishing, ∀ r o f jr,
    as_completed max_workers submitted []
      {| rng := r; completions := finishing; stdout := o; fs := f;
         journal := jr |}
    = (Ret order,
       {| rng := r; completions := []; stdout := o; fs := f;
          journal := jr |}).
Proof.
  intros Hle Hperm.
  destruct (drain_any_order order submitted Hperm) as (finishing & Hrun).
  exists finishing. intros r o f jr.
  rewrite as_completed_all_start by (cbn; lia). cbn [app]. apply Hrun.
Qed.

(** ** The run over all categories *)

Section MainFacts.

Variable E : env.
Variable cfg : config.

Lemma for_each_no_file_lost (folders : list string) w :
  no_file_lost (fs w) (fs (for_each E cfg folders w).2).
Proof.
  pose proof no_file_lost_preorder.
  apply (preserves_for_each no_file_lost (λ _, True)
           no_file_lost_mkdir no_file_lost_save E cfg).
  by apply Forall_forall.
Qed.

Lemma for_each_returns (folders : list string) w w' :
  for_each E cfg folders w = (Ret (), w') →
  Forall (λ p, is_Some (fs w' !! Str.path_join p "images")) folders.
Proof.
  revert w. induction folders as [|p rest IH]; intros w Hrun; [done|].
  cbn [for_each] in Hrun. unfold mbind, M_bind in Hrun.
  pose proof (process_species_dir E cfg p w) as Hdir.
  destruct (process_species E cfg p w) as [[[]|e] w1] eqn:Hp;
    [|discriminate Hrun].
  cbn in Hdir. constructor; [|by eapply IH].
  destruct Hdir as [d Hd].
  destruct (for_each_no_file_lost rest w1 _ _ Hd) as (d' & Hd' & _).
  rewrite Hrun in Hd'. by eexists.
Qed.

Lemma for_each_index_error (folders : list string) w w' :
  (1 ≤ MAX_THREADS cfg)%nat →
  for_each E cfg folders w = (Raise IndexError, w') →
  ∃ p d, p ∈ folders
         ∧ fs w' !! Str.path_join p "images" = Some d
         ∧ jpg_names d = []
         ∧ last (stdout w') = Some (msg_augmenting (Str.basename p)).
Proof.
  intros Hthreads. revert w.
  induction folders as [|p rest IH]; intros w Hrun; [discriminate Hrun|].
  cbn [for_each] in Hrun. unfold mbind, M_bind in Hrun.
  destruct (process_species E cfg p w) as [[[]|e1] w1] eqn:Hp.
  - destruct (IH w1 Hrun) as (q & d & Hq & Hd & Hpool & Hlast).
    exists q, d. split; [by right|done].
  - injection Hrun as -> <-.
    destruct (process_species_index_error E cfg p w w1 Hthreads Hp)
      as (d & Hd & Hpool & Hlast).
    exists p, d. split; [by left|done].
Qed.

(** X18.  When [main] returns, every subdirectory of the root has its
    image directory and the last line logged is the closing one. *)
Theorem main_returns_with_every_images_dir w w' :
  main E cfg w = (Ret (), w') →
  Forall (λ d, is_Some (fs w' !! d)) (images_dirs E)
  ∧ last (stdout w') = Some msg_all_processed.
Proof.
  unfold main, log. unfold_M. intros Hrun.
  match type of Hrun with context [for_each E cfg ?ps ?w0] =>
    destruct (for_each E cfg ps w0) as [[[]|e] w1] eqn:Hloop
  end; [|discriminate Hrun].
  injection Hrun as <-. cbn. split; [|by rewrite last_snoc].
  unfold images_dirs. rewrite Forall_fmap.
  by apply for_each_returns in Hloop.
Qed.

(** X19.  With at least one worker, an [IndexError] out of [main] is
    that of the starved top-up of one of the categories: its image
    directory holds no [.jpg] file, the last line logged is the start of
    its augmentation, and the closing line is not printed. *)
Theorem main_index_error_means_starved_top_up w w' :
  (1 ≤ MAX_THREADS cfg)%nat →
  main E cfg w = (Raise IndexError, w') →
  ∃ p d, p ∈ species_folders E
         ∧ fs w' !! Str.path_join p "images" = Some d
         ∧ jpg_names d = []
         ∧ last (stdout w') = Some (msg_augmenting (Str.basename p)).
Proof.
  intros Hthreads. unfold main, log. unfold_M. intros Hrun.
  match type of Hrun with context [for_each E cfg ?ps ?w0] =>
    destruct (for_each E cfg ps w0) as [[[]|e1] w1] eqn:Hloop
  end; [discriminate Hrun|].
  injection Hrun as -> <-.
  by apply for_each_index_error in Hloop.
Qed.

End MainFacts.

Section Rerun.

Variable E : env.
Variable cfg : config.

(** X20.  With at least one worker, the top-up of a category whose
    image directory already holds a [.jpg] file is never starved:
    whatever the downloads do, [process_species] does not end with the
    [IndexError] of an empty pool. *)
Theorem old_image_prevents_starvation (species_path f : string)
    (d : directory) w w' :
  (1 ≤ MAX_THREADS cfg)%nat →
  fs w !! Str.path_join species_path "images" = Some d →
  f ∈ jpg_names d →
  process_species E cfg species_path w ≠ (Raise IndexError, w').
Proof.
  intros Hthreads Hd [Hf Hjpg]%jpg_names_elem Hrun.
  destruct (process_species_index_error E cfg species_path w w' Hthreads Hrun)
    as (d' & Hd' & Hpool & _).
  destruct (process_species_no_file_lost E cfg species_path w _ _ Hd)
    as (d'' & Hd'' & Hsub).
  rewrite Hrun in Hd''. cbn in Hd''.
  assert (d'' = d') as -> by congruence.
  assert (f ∈ jpg_names d') as Hin.
  { apply jpg_names_elem. split; [|done].
    apply elem_of_dom, Hsub. by apply elem_of_dom. }
  rewrite Hpool in Hin. by apply elem_of_nil in Hin.
Qed.

End Rerun.

(** ** The further properties at sample inputs *)

(** [augment_image_shape] at an image and a tape whose four draws are
    zero. *)
Lemma augment_image_shape_witness :
  ∃ (flip : bool) angle f1 f2,
    Brightness_enhance (0.7 + (1.3 - 0.7) * (0 # 2 ^ 53))
      (Color_enhance (0.7 + (1.3 - 0.7) * (0 # 2 ^ 53))
         (rotate 0 (transpose_FLIP_LEFT_RIGHT (Image_open "a"))))
    = Brightness_enhance f2
        (Color_enhance f1
           (rotate angle
              (if flip then transpose_FLIP_LEFT_RIGHT (Image_open "a")
               else Image_open "a")))
    ∧ angle ∈ [0; 90; 180; 270]%nat
    ∧ (0.7 <= f1 <= 1.3)%Q
    ∧ (0.7 <= f2 <= 1.3)%Q.
Proof.
  destruct (augment_image_shape (Image_open "a")
              (Brightness_enhance (0.7 + (1.3 - 0.7) * (0 # 2 ^ 53))
                 (Color_enhance (0.7 + (1.3 - 0.7) * (0 # 2 ^ 53))
                    (rotate 0 (transpose_FLIP_LEFT_RIGHT (Image_open "a")))))
              (fresh [0; 0; 0; 0]%N []) (fresh [] []))
    as (flip & angle & f1 & f2 & Heq & Hangle & Hf1 & Hf2 & _).
  - reflexivity.
  - exists flip, angle, f1, f2.
    split; [exact Heq|]. split; [exact Hangle|]. split; [exact Hf1|exact Hf2].
Defined.

(** [index_error_means_starved_top_up] at the category whose requests
    all time out. *)
Lemma index_error_means_starved_top_up_witness :
  ∃ d,
    fs (process_species all_time_out (small 3) "/r/Aphid" (fresh [] [])).2
      !! Str.path_join "/r/Aphid" "images" = Some d
    ∧ jpg_names d = []
    ∧ last (stdout (process_species all_time_out (small 3) "/r/Aphid"
                                    (fresh [] [])).2)
      = Some (msg_augmenting (Str.basename "/r/Aphid")).
Proof.
  apply (index_error_means_starved_top_up all_time_out (small 3)
           "/r/Aphid" (fresh [] [])).
  - simpl. lia.
  - vm_compute. reflexivity.
Defined.


(** [main_changes_only_images_dirs] at a directory outside the root. *)
Lemma main_changes_only_images_dirs_witness :
  fs (main only_A (small 2)
           {| rng := []; completions := []; stdout := [];
              fs := {[ "/elsewhere" := {[ "x.jpg" := Image_open "x" ]} ]};
              journal := [] |}).2 !! "/elsewhere"
  = Some {[ "x.jpg" := Image_open "x" ]}.
Proof.
  rewrite (main_changes_only_images_dirs only_A (small 2) "/elsewhere").
  - reflexivity.
  - refine (bool_decide_unpack _ _). vm_compute. exact I.
Defined.

(** [no_file_is_ever_removed] at a category that is run again over an
    old image. *)
Lemma no_file_is_ever_removed_witness :
  (∃ d', fs (process_species only_A (small 2) "/r/Aphid"
                             (Cases.rerun [] [])).2
           !! "/r/Aphid/images" = Some d'
         ∧ is_Some (d' !! "old.jpg"))
  ∧ (∃ d', fs (main only_A (small 2) (Cases.rerun [] [])).2
             !! "/r/Aphid/images" = Some d'
           ∧ is_Some (d' !! "old.jpg")).
Proof.
  apply (no_file_is_ever_removed only_A (small 2) "/r/Aphid"
           "/r/Aphid/images" "old.jpg" {[ "old.jpg" := Image_open "old" ]}
           (Cases.rerun [] [])).
  - vm_compute. reflexivity.
  - eexists. vm_compute. reflexivity.
Defined.

(** [process_species_requests_metadata_only] at the category Aphid. *)
Lemma process_species_requests_metadata_only_witness :
  ∃ j,
    journal (process_species only_B (small 3) "/r/Aphid" (fresh [] [])).2
    = [] ++ j
    ∧ requests j ⊆+ [Val "A"; Val "B"]
    ∧ NoDup (requests j)
    ∧ length (requests j) ≤ 3.
Proof.
  apply (process_species_requests_metadata_only only_B (small 3) "/r/Aphid"
           (fresh [] [])).
  simpl. lia.
Defined.

(** [one_worker_requests_in_list_order] at a batch of two. *)
Lemma one_worker_requests_in_list_order_witness :
  ∃ downloaded j w',
    fetch_all only_B (Cases.one_worker 3) "/r/Aphid/images" "Aphid"
              [Val "A"; Val "B"] (made [] [7%nat; 5%nat])
    = (Ret downloaded, w')
    ∧ journal w' = [] ++ j
    ∧ requests j = [Val "A"; Val "B"].
Proof.
  apply (one_worker_requests_in_list_order only_B (Cases.one_worker 3)
           "/r/Aphid/images" "Aphid" [Val "A"; Val "B"]
           (made [] [7%nat; 5%nat])).
  reflexivity.
Defined.

(** [every_completion_order_is_possible] at two downloads finishing in
    reverse. *)
Lemma every_completion_order_is_possible_witness :
  ∃ finishing, ∀ r o f jr,
    as_completed 2 [Val "A"; Val "B"] []
      {| rng := r; completions := finishing; stdout := o; fs := f;
         journal := jr |}
    = (Ret [Val "B"; Val "A"],
       {| rng := r; completions := []; stdout := o; fs := f;
          journal := jr |}).
Proof.
  apply (every_completion_order_is_possible 2 [Val "A"; Val "B"]
           [Val "B"; Val "A"]).
  - simpl. lia.
  - apply Permutation_swap.
Defined.

(** [main_returns_with_every_images_dir] at the sample root. *)
Lemma main_returns_with_every_images_dir_witness :
  Forall (λ d, is_Some (fs (main only_A (small 2) (fresh [] [])).2 !! d))
         (images_dirs only_A)
  ∧ last (stdout (main only_A (small 2) (fresh [] [])).2)
    = Some msg_all_processed.
Proof.
  apply (main_returns_with_every_images_dir only_A (small 2) (fresh [] [])).
  vm_compute. reflexivity.
Defined.

(** [main_index_error_means_starved_top_up] at the root where every
    request times out. *)
Lemma main_index_error_means_starved_top_up_witness :
  ∃ p d, p ∈ species_folders all_time_out
         ∧ fs (main all_time_out (small 3) (fresh [] [])).2
             !! Str.path_join p "images" = Some d
         ∧ jpg_names d = []
         ∧ last (stdout (main all_time_out (small 3) (fresh [] [])).2)
           = Some (msg_augmenting (Str.basename p)).
Proof.
  apply (main_index_error_means_starved_top_up all_time_out (small 3)
           (fresh [] [])).
  - simpl. lia.
  - vm_compute. reflexivity.
Defined.

(** [old_image_prevents_starvation] at a second run in which every
    request times out. *)
Lemma old_image_prevents_starvation_witness :
  process_species all_time_out (small 3) "/r/Aphid" (Cases.rerun [] [])
  ≠ (Raise IndexError,
     (process_species all_time_out (small 3) "/r/Aphid" (fresh [] [])).2).
Proof.
  apply (old_image_prevents_starvation all_time_out (small 3)
           "/r/Aphid" "old.jpg" {[ "old.jpg" := Image_open "old" ]}).
  - simpl. lia.
  - vm_compute. reflexivity.
  - refine (bool_decide_unpack _ _). vm_compute. exact I.
Defined.

